(** * Red Rover code puzzle: parser, sorter and printer of [src/puzzle.ts]

    A shallow embedding of the three exported functions of [puzzle.ts]
    ([parseInput], [sortItems], [printItems]) and the properties of the
    specification that are stated about them. *)

From Stdlib Require Import String Ascii List ZArith NArith Lia Bool Sorted.
Import ListNotations.

Set Implicit Arguments.
Set Warnings "-register-all".

(** ** Host-language strings

    A JavaScript string is a sequence of UTF-16 code units.  The loop
    [for (const char of input)] walks code points, but the three characters
    the parser looks at are single code units and every other code point is
    appended to the buffer whole, so walking code units builds the same
    buffer. *)

Module JS.

Definition char := N.
Definition str := list char.

(** String literals of the development: the code units of an ASCII text. *)
Definition js (s : string) : str := map N_of_ascii (list_ascii_of_string s).

Definition LPAREN : char := 40%N.
Definition RPAREN : char := 41%N.
Definition COMMA : char := 44%N.

(** [WhiteSpace] and [LineTerminator] of ECMAScript, the code units that
    [String.prototype.trim] removes. *)
Definition is_whitespace (c : char) : bool :=
  ((9 <=? c) && (c <=? 13) || (c =? 32) || (c =? 160) || (c =? 5760)
   || (8192 <=? c) && (c <=? 8202) || (c =? 8232) || (c =? 8233)
   || (c =? 8239) || (c =? 8287) || (c =? 12288) || (c =? 65279))%N.

Fixpoint trimStart (s : str) : str :=
  match s with
  | [] => []
  | c :: rest => if is_whitespace c then trimStart rest else s
  end.

Definition trimEnd (s : str) : str := rev (trimStart (rev s)).

Definition trim (s : str) : str := trimEnd (trimStart s).

(** [s.slice(start, end)] with its relative (negative) indices. *)
Definition slice (s : str) (start end_ : Z) : str :=
  let len := Z.of_nat (length s) in
  let from := if (start <? 0)%Z then Z.max (len + start) 0 else Z.min start len in
  let to := if (end_ <? 0)%Z then Z.max (len + end_) 0 else Z.min end_ len in
  firstn (Z.to_nat (to - from)) (skipn (Z.to_nat from) s).

(** Truthiness of a string: [if (buffer)]. *)
Definition truthy (s : str) : bool :=
  match s with [] => false | _ :: _ => true end.

Definition str_eqb (a b : str) : bool :=
  if list_eq_dec N.eq_dec a b then true else false.

End JS.
Import JS.

(** ** Completions

    A call returns normally, throws, or (in the fuel-indexed definitions
    below) runs out of fuel. *)

Inductive exn : Type := TypeError.

Inductive outcome (A : Type) : Type :=
| Ok (a : A)
| Throw (e : exn)
| OutOfFuel.
Arguments Throw {A} e.
Arguments OutOfFuel {A}.

Definition bind {A B : Type} (m : outcome A) (k : A -> outcome B) : outcome B :=
  match m with
  | Ok a => k a
  | Throw e => Throw e
  | OutOfFuel => OutOfFuel
  end.

Notation "x <- m ;; k" := (bind m (fun x => k))
  (at level 61, m at next level, right associativity).

(** ** Item model

    [type Item = string | Record<string, Item[]>]: a string, or an object
    given by its own enumerable properties in [Object.keys] order. *)

Inductive Item : Type :=
| IString (s : str)
| IRecord (fields : list (str * list Item)).

(** The two shapes the specification names. *)
Definition Leaf (name : str) : Item := IString name.
Definition Node (name : str) (children : list Item) : Item :=
  IRecord [(name, children)].

(** [Object.keys(o)[0]], [undefined] as [None]. *)
Definition first_key (fields : list (str * list Item)) : option str :=
  match fields with
  | [] => None
  | (k, _) :: _ => Some k
  end.

(** [o[key] = value] on an ordinary object. *)
Fixpoint set_prop (fields : list (str * list Item)) (key : str)
    (value : list Item) : list (str * list Item) :=
  match fields with
  | [] => [(key, value)]
  | (k, v) :: rest =>
      if str_eqb k key then (k, value) :: rest
      else (k, v) :: set_prop rest key value
  end.

(** ** Parser *)

Record scan_state : Type := mkState {
  items : list Item;
  buffer : str;
  depth : Z
}.

Definition init_state : scan_state := mkState [] [] 0.

(** [items[items.length - 1]], [undefined] as [None]. *)
Definition last_item (l : list Item) : option Item :=
  match rev l with
  | [] => None
  | x :: _ => Some x
  end.

(** [if (lastItem)]: [undefined] and the empty string are falsy. *)
Definition item_truthy (o : option Item) : bool :=
  match o with
  | None => false
  | Some (IString s) => truthy s
  | Some (IRecord _) => true
  end.

(** [const key = Object.keys(lastItem)[0]; lastItem[key] = children;]
    The module is strict code: on a string primitive the keys are its
    indices and the assignment throws; on an object without keys the key
    is [undefined], which names the property "undefined". *)
Definition assign_children (lastItem : Item) (children : list Item)
  : outcome Item :=
  match lastItem with
  | IString _ => Throw TypeError
  | IRecord fields =>
      let key := match first_key fields with
                 | Some k => k
                 | None => js "undefined"
                 end in
      Ok (IRecord (set_prop fields key children))
  end.

Section Scan.

(** The recursive call [parseInput(...)] of the loop body. *)
Variable rec : str -> outcome (list Item).

(** One iteration of the loop [for (const char of input)]. *)
Definition step (st : scan_state) (c : char) : outcome scan_state :=
  if (c =? LPAREN)%N then
    let buffer0 := trim (buffer st) in
    let '(items1, buffer1) :=
      if (depth st =? 0)%Z && truthy buffer0
      then (items st ++ [IRecord [(buffer0, [])]], [])
      else (items st, buffer0) in
    Ok (mkState items1 (buffer1 ++ [c]) (depth st + 1))
  else if (c =? RPAREN)%N then
    let depth1 := (depth st - 1)%Z in
    let buffer1 := buffer st ++ [c] in
    if (depth1 =? 0)%Z then
      let buffer2 := trim buffer1 in
      children <- rec (slice buffer2 1 (-1)) ;;
      let lastItem := last_item (items st) in
      if item_truthy lastItem then
        match lastItem with
        | Some it =>
            it' <- assign_children it children ;;
            Ok (mkState (removelast (items st) ++ [it']) [] depth1)
        | None => Ok (mkState children [] depth1)
        end
      else Ok (mkState children [] depth1)
    else Ok (mkState (items st) buffer1 depth1)
  else if (c =? COMMA)%N && (depth st =? 0)%Z then
    let buffer0 := trim (buffer st) in
    let items1 :=
      if truthy buffer0 then items st ++ [IString buffer0] else items st in
    Ok (mkState items1 [] (depth st))
  else
    Ok (mkState (items st) (buffer st ++ [c]) (depth st)).

Fixpoint scan (input : str) (st : scan_state) : outcome scan_state :=
  match input with
  | [] => Ok st
  | c :: rest => st' <- step st c ;; scan rest st'
  end.

(** The code after the loop. *)
Definition finish (st : scan_state) : list Item :=
  let buffer0 := trim (buffer st) in
  if truthy buffer0 then items st ++ [IString buffer0] else items st.

End Scan.

(** [parseInput] with its recursion depth bounded by [fuel]. *)
Fixpoint parse_fuel (fuel : nat) (input : str) : outcome (list Item) :=
  match fuel with
  | O => OutOfFuel
  | S fuel' =>
      st <- scan (parse_fuel fuel') input init_state ;;
      Ok (finish st)
  end.

(** Every recursive call is on a strictly shorter string, so the length of
    the input bounds the recursion depth ([parse_fuel_enough] below). *)
Definition parseInput (input : str) : outcome (list Item) :=
  parse_fuel (S (length input)) input.

(** ** Sorter *)

Section ArraySort.

Variable A : Type.
Variable comparefn : A -> A -> outcome Z.

(** [Array.prototype.sort(comparefn)].  For a consistent comparator the
    language fixes the result: the stable ordering of the elements, an
    element [x] standing before [y] when [comparefn(x, y) <= 0] and [x]
    came first.  Insertion from the right computes that ordering; an
    exception of the comparator ends the sort. *)
Fixpoint sort_insert (x : A) (sorted : list A) : outcome (list A) :=
  match sorted with
  | [] => Ok [x]
  | y :: rest =>
      v <- comparefn x y ;;
      if (v <=? 0)%Z then Ok (x :: sorted)
      else (rest' <- sort_insert x rest ;; Ok (y :: rest'))
  end.

Fixpoint array_sort (l : list A) : outcome (list A) :=
  match l with
  | [] => Ok []
  | x :: rest => sorted <- array_sort rest ;; sort_insert x sorted
  end.

(** A loop [for (const item of items)] whose body may replace the state of
    the element it visits. *)
Variable body : A -> outcome A.

Fixpoint for_of (l : list A) : outcome (list A) :=
  match l with
  | [] => Ok []
  | x :: rest => x' <- body x ;; rest' <- for_of rest ;; Ok (x' :: rest')
  end.

End ArraySort.

(** [typeof a === 'string' ? a : Object.keys(a)[0]] *)
Definition item_key (a : Item) : option str :=
  match a with
  | IString s => Some s
  | IRecord fields => first_key fields
  end.

(** Nesting height of an item, the recursion depth of the sorter. *)
Fixpoint height (it : Item) : nat :=
  match it with
  | IString _ => 0
  | IRecord fields =>
      S (fold_right
           (fun (f : str * list Item) acc =>
              Nat.max (fold_right (fun c a => Nat.max (height c) a) 0 (snd f)) acc)
           0 fields)
  end.

Definition heights (l : list Item) : nat :=
  fold_right (fun c a => Nat.max (height c) a) 0 l.

Section Sorter.

(** [String.prototype.localeCompare] of the host: negative, zero or
    positive.  It depends on the host's locale data and is a parameter of
    the development. *)
Variable localeCompare : str -> str -> Z.

(** The comparator [alphabetically].  [aKey.localeCompare] on [undefined]
    throws; an [undefined] argument is compared as the text "undefined". *)
Definition alphabetically (a b : Item) : outcome Z :=
  match item_key a with
  | None => Throw TypeError
  | Some aKey =>
      let bKey := match item_key b with
                  | Some k => k
                  | None => js "undefined"
                  end in
      Ok (localeCompare aKey bKey)
  end.

(** The body of the loop after the sort: [Object.values(item)[0]] is sorted
    in place; on an object without properties it is [undefined] and the
    recursive call throws at [items.sort]. *)
Definition sort_children (rec : list Item -> outcome (list Item))
    (item : Item) : outcome Item :=
  match item with
  | IString _ => Ok item
  | IRecord [] => Throw TypeError
  | IRecord ((k, children) :: rest) =>
      children' <- rec children ;;
      Ok (IRecord ((k, children') :: rest))
  end.

(** [sortItems] with its recursion depth bounded by [fuel]; the result is
    the state of the array after the call.  An engine may call the
    comparator on other pairs than [array_sort] does; the completion is the
    same: an object without properties ends the call with a TypeError, in the
    comparator or in the loop, and without such an object the comparator
    does not throw. *)
Fixpoint sort_fuel (fuel : nat) (items : list Item) : outcome (list Item) :=
  match fuel with
  | O => OutOfFuel
  | S fuel' =>
      sorted <- array_sort alphabetically items ;;
      for_of (sort_children (sort_fuel fuel')) sorted
  end.

Definition sortItems (items : list Item) : outcome (list Item) :=
  sort_fuel (S (heights items)) items.

End Sorter.

(** Comparison of two strings by code units: a consistent comparator, and
    the ordering the host's [localeCompare] has on the names of the shipped
    example. *)
Fixpoint codeUnitCompare (a b : str) : Z :=
  match a, b with
  | [], [] => 0
  | [], _ :: _ => -1
  | _ :: _, [] => 1
  | x :: a', y :: b' =>
      match N.compare x y with
      | Lt => -1
      | Gt => 1
      | Eq => codeUnitCompare a' b'
      end
  end.

(** ** Printer *)

(** The lines written to the console so far. *)
Definition console := list str.

(** ['  '.repeat(indent)] *)
Fixpoint repeat_str (s : str) (n : nat) : str :=
  match n with
  | O => []
  | S n' => s ++ repeat_str s n'
  end.

(** [console.log(`${indentation}- ${name}`)] *)
Definition console_log_item (indent : nat) (name : str) (out : console)
  : console :=
  out ++ [repeat_str (js "  ") indent ++ js "- " ++ name].

Section PrintLoop.

Variable print_item : Item -> console -> console * outcome unit.

Fixpoint print_each (items : list Item) (out : console)
  : console * outcome unit :=
  match items with
  | [] => (out, Ok tt)
  | item :: rest =>
      match print_item item out with
      | (out', Ok _) => print_each rest out'
      | (out', Throw e) => (out', Throw e)
      | (out', OutOfFuel) => (out', OutOfFuel)
      end
  end.

End PrintLoop.

(** The loop body of [printItems] at indentation level [indent].
    Destructuring [Object.entries(item)[0]] of an object without properties
    throws. *)
Fixpoint print_item (indent : nat) (item : Item) (out : console)
  : console * outcome unit :=
  match item with
  | IString s => (console_log_item indent s out, Ok tt)
  | IRecord [] => (out, Throw TypeError)
  | IRecord ((key, children) :: _) =>
      print_each (print_item (S indent)) children
        (console_log_item indent key out)
  end.

Definition printItems (items : list Item) (indent : nat) (out : console)
  : console * outcome unit :=
  print_each (print_item indent) items out.

Definition shipped_input : str :=
  js "(id, name, email, type(id, name, customFields(c1, c2, c3)), externalId)".

Definition shipped_items : list Item :=
  [Leaf (js "id"); Leaf (js "name"); Leaf (js "email");
   Node (js "type")
     [Leaf (js "id"); Leaf (js "name");
      Node (js "customFields") [Leaf (js "c1"); Leaf (js "c2"); Leaf (js "c3")]];
   Leaf (js "externalId")].

Definition shipped_sorted : list Item :=
  [Leaf (js "email"); Leaf (js "externalId"); Leaf (js "id"); Leaf (js "name");
   Node (js "type")
     [Node (js "customFields") [Leaf (js "c1"); Leaf (js "c2"); Leaf (js "c3")];
      Leaf (js "id"); Leaf (js "name")]].

(** ** Predicates of the statements *)

(** Every object of the item has exactly one property, at every depth. *)
Fixpoint single_keyed (it : Item) : bool :=
  match it with
  | IString _ => true
  | IRecord [(_, children)] => forallb single_keyed children
  | IRecord _ => false
  end.

(** What the parser puts into a result sequence: single-keyed objects and
    non-empty strings. *)
Definition parsed_item (it : Item) : Prop :=
  single_keyed it = true /\ item_truthy (Some it) = true.


(** The names of the shipped example. *)
Definition shipped_names : list str :=
  [js "id"; js "name"; js "email"; js "type"; js "customFields";
   js "c1"; js "c2"; js "c3"; js "externalId"].

(** On the names of the shipped example the host's [localeCompare] orders
    as the code units do (lower-case ASCII letters and digits decide every
    comparison). *)
Definition orders_shipped_names (localeCompare : str -> str -> Z) : Prop :=
  forall a b, In a shipped_names -> In b shipped_names ->
    (localeCompare a b <=? 0)%Z = (codeUnitCompare a b <=? 0)%Z.

(** Induction on items through the nesting of records and lists. *)
Section ItemInduction.

Variable P : Item -> Prop.
Hypothesis P_string : forall s, P (IString s).
Hypothesis P_record : forall fields,
  Forall (fun f => Forall P (snd f)) fields -> P (IRecord fields).

Fixpoint Item_nested_ind (it : Item) : P it :=
  match it with
  | IString s => P_string s
  | IRecord fields =>
      P_record
        ((fix fields_ind (fs : list (str * list Item))
            : Forall (fun f => Forall P (snd f)) fs :=
            match fs with
            | [] => Forall_nil _
            | f :: fs' =>
                Forall_cons f
                  ((fix items_ind (cs : list Item) : Forall P cs :=
                      match cs with
                      | [] => Forall_nil _
                      | c :: cs' => Forall_cons c (Item_nested_ind c) (items_ind cs')
                      end) (snd f))
                  (fields_ind fs')
            end) fields)
  end.

End ItemInduction.

(** The name the comparator reads from an item when it is the second
    argument ([undefined] converts to the text "undefined"). *)
Definition name_of (it : Item) : str :=
  match item_key it with
  | Some k => k
  | None => js "undefined"
  end.

(** A consistent comparison function in the sense of ECMAScript
    (Array.prototype.sort), for the comparator [localeCompare] on names:
    reflexivity and symmetry of "equal", transitivity of "equal", "less"
    and "greater". *)
Record consistent_comparator (cmp : str -> str -> Z) : Prop := {
  cmp_refl : forall a, cmp a a = 0%Z;
  cmp_sym : forall a b, cmp a b = 0%Z -> cmp b a = 0%Z;
  cmp_trans_eq : forall a b c, cmp a b = 0%Z -> cmp b c = 0%Z -> cmp a c = 0%Z;
  cmp_trans_lt : forall a b c, (cmp a b < 0)%Z -> (cmp b c < 0)%Z -> (cmp a c < 0)%Z;
  cmp_trans_gt : forall a b c, (cmp a b > 0)%Z -> (cmp b c > 0)%Z -> (cmp a c > 0)%Z
}.

(** Adjacent items are in comparator order. *)
Definition name_sorted (cmp : str -> str -> Z) (l : list Item) : Prop :=
  Sorted (fun a b => (cmp (name_of a) (name_of b) <= 0)%Z) l.

(** The items of a sequence in the order of a depth-first, pre-order walk
    (a node, then its children, then its next sibling), each with its
    nesting depth and its name. *)
Fixpoint outline_item (depth : nat) (it : Item) : list (nat * str) :=
  match it with
  | IString s => [(depth, s)]
  | IRecord [] => []
  | IRecord ((name, children) :: _) =>
      (depth, name) :: flat_map (outline_item (S depth)) children
  end.

Definition outline (depth : nat) (items : list Item) : list (nat * str) :=
  flat_map (outline_item depth) items.

(** The number of items of a sequence across all depths. *)
Fixpoint count_item (it : Item) : nat :=
  match it with
  | IString _ => 1
  | IRecord fields =>
      S (fold_right
           (fun (f : str * list Item) acc =>
              fold_right (fun c a => count_item c + a) 0 (snd f) + acc)
           0 fields)
  end.

Definition count_items (items : list Item) : nat :=
  fold_right (fun c a => count_item c + a) 0 items.

Definition SPACE : char := 32%N.

(** The line of an item at nesting depth [depth]: twice [depth] spaces, a
    hyphen and a space, the name. *)
Definition line_of (entry : nat * str) : str :=
  repeat SPACE (2 * fst entry) ++ js "- " ++ snd entry.

(** The number of occurrences of a code unit in a string. *)
Definition occurrences (c : char) (s : str) : Z :=
  Z.of_nat (count_occ N.eq_dec s c).

(** The most recently emitted node of a result sequence: its last object,
    as name and children. *)
Fixpoint last_node (l : list Item) : option (str * list Item) :=
  match l with
  | [] => None
  | it :: rest =>
      match last_node rest with
      | Some n => Some n
      | None =>
          match it with
          | IRecord ((name, children) :: _) => Some (name, children)
          | _ => None
          end
      end
  end.

(** The result sequence after an opening parenthesis met at depth 0 in
    state [st]: a placeholder is emitted when the trimmed buffer is a name. *)
Definition open_group (st : scan_state) : list Item :=
  if truthy (trim (buffer st))
  then items st ++ [Node (trim (buffer st)) []]
  else items st.

(** ** Whitespace around names and delimiters *)

Definition is_delim (c : char) : bool :=
  ((c =? LPAREN) || (c =? RPAREN) || (c =? COMMA))%N.

(** A run of text between two delimiters. *)
Definition no_delim (seg : str) : Prop :=
  forallb (fun c => negb (is_delim c)) seg = true.

Definition all_whitespace (w : str) : Prop :=
  forallb is_whitespace w = true.

(** Two strings differ only by whitespace around names, commas and
    parentheses: they have the same delimiters in the same order, and the
    texts between consecutive delimiters are equal once trimmed.  Whitespace
    inside a name is kept. *)
Inductive ws_equiv : str -> str -> Prop :=
| ws_last seg1 seg2 :
    no_delim seg1 -> no_delim seg2 -> trim seg1 = trim seg2 ->
    ws_equiv seg1 seg2
| ws_token seg1 seg2 d s t :
    no_delim seg1 -> no_delim seg2 -> trim seg1 = trim seg2 ->
    is_delim d = true ->
    ws_equiv s t ->
    ws_equiv (seg1 ++ d :: s) (seg2 ++ d :: t).

(** The same for two strings that end at a delimiter. *)
Inductive tokens_equiv : str -> str -> Prop :=
| tokens_nil : tokens_equiv [] []
| tokens_snoc u1 u2 seg1 seg2 d :
    tokens_equiv u1 u2 ->
    no_delim seg1 -> no_delim seg2 -> trim seg1 = trim seg2 ->
    is_delim d = true ->
    tokens_equiv (u1 ++ seg1 ++ [d]) (u2 ++ seg2 ++ [d]).

(** The depth after the parentheses of [s], from depth [d]; [None] when a
    closing parenthesis has no opening one. *)
Fixpoint nesting (d : Z) (s : str) : option Z :=
  match s with
  | [] => Some d
  | c :: rest =>
      if (c =? LPAREN)%N then nesting (d + 1) rest
      else if (c =? RPAREN)%N then
        if (d <=? 0)%Z then None else nesting (d - 1) rest
      else nesting d rest
  end.

(** Parentheses that match: every closing one closes an open group, and no
    group is left open. *)
Definition balanced (s : str) : Prop := nesting 0 s = Some 0%Z.

(** The loop states of two runs on whitespace-equivalent inputs, after the
    same delimiter. *)
Definition sim_state (st1 st2 : scan_state) : Prop :=
  items st1 = items st2
  /\ depth st1 = depth st2
  /\ ((depth st1 = 0%Z /\ buffer st1 = [] /\ buffer st2 = [])
      \/ ((depth st1 > 0)%Z
          /\ exists u1 u2,
               buffer st1 = LPAREN :: u1 /\ buffer st2 = LPAREN :: u2
               /\ tokens_equiv u1 u2
               /\ nesting 0 u1 = Some (depth st1 - 1)%Z)).

(** Two completions of the loop body that agree: related states, or the
    same exception. *)
Definition sim_outcome (o1 o2 : outcome scan_state) : Prop :=
  match o1, o2 with
  | Ok a, Ok b => sim_state a b
  | Throw e1, Throw e2 => e1 = e2
  | _, _ => False
  end.

(** The state after the loop has read the text [seg] of a name. *)
Definition append_text (st : scan_state) (seg : str) : scan_state :=
  mkState (items st) (buffer st ++ seg) (depth st).

(** The end of the loop body once a closing parenthesis has returned the
    depth to 0 and the group has been parsed to [children]. *)
Definition attach_group (items0 : list Item) (children : list Item)
  : outcome scan_state :=
  let lastItem := last_item items0 in
  if item_truthy lastItem then
    match lastItem with
    | Some it =>
        it' <- assign_children it children ;;
        Ok (mkState (removelast items0 ++ [it']) [] 0)
    | None => Ok (mkState children [] 0)
    end
  else Ok (mkState children [] 0).

(** What the loop knows while it is inside a group: where the group was
    opened, the items built up to there, and the parentheses of the buffer. *)
Definition unclosed_inv (rec : str -> outcome (list Item)) (input : str)
    (st : scan_state) : Prop :=
  (depth st > 0)%Z ->
  exists pre post st0 rest,
    input = pre ++ LPAREN :: post
    /\ scan rec pre init_state = Ok st0
    /\ depth st0 = 0%Z
    /\ items st = open_group st0
    /\ buffer st = LPAREN :: rest
    /\ (occurrences LPAREN (buffer st) - occurrences RPAREN (buffer st))%Z
       = depth st.

(** ** Proof automation *)

(** Membership in the list of shipped names. *)
Ltac in_names := simpl; repeat first [left; reflexivity | right].

Ltac decide_comparison H :=
  cbn -[Z.leb];
  match goal with
  | |- context [(?f ?a ?b <=? 0)%Z] =>
      rewrite (H a b) by in_names;
      let v := eval vm_compute in (codeUnitCompare a b <=? 0)%Z in
      change (codeUnitCompare a b <=? 0)%Z with v
  end.

(** * Further definitions: what the three functions guarantee together *)

From Stdlib Require Import Permutation.

(** The children that the sorter reaches (the first property of every
    object) are in comparator order, at every depth. *)
Fixpoint deep_sorted_item (cmp : str -> str -> Z) (it : Item) : Prop :=
  match it with
  | IRecord ((_, children) :: _) =>
      name_sorted cmp children
      /\ fold_right (fun c acc => deep_sorted_item cmp c /\ acc) True children
  | _ => True
  end.

Definition deep_sorted (cmp : str -> str -> Z) (l : list Item) : Prop :=
  name_sorted cmp l /\ fold_right (fun c acc => deep_sorted_item cmp c /\ acc) True l.


(** ** Names and notation *)

(** [s.split(',')], the entry being read in [seg]. *)
Fixpoint entries_from (seg : str) (s : str) : list str :=
  match s with
  | [] => [seg]
  | c :: rest =>
      if (c =? COMMA)%N then seg :: entries_from [] rest
      else entries_from (seg ++ [c]) rest
  end.

Definition entries (s : str) : list str := entries_from [] s.

Definition no_paren (s : str) : Prop :=
  forallb (fun c => negb (c =? LPAREN)%N && negb (c =? RPAREN)%N) s = true.

(** A name as the parser emits it: not empty, no whitespace at its ends. *)
Definition clean_name (n : str) : bool := truthy n && str_eqb (trim n) n.

(** Every name of the item is clean, at every depth. *)
Fixpoint clean_names (it : Item) : bool :=
  match it with
  | IString s => clean_name s
  | IRecord fields =>
      forallb (fun f : str * list Item =>
                 clean_name (fst f) && forallb clean_names (snd f)) fields
  end.

(** The buffer after the loop has read [u] inside a group: every code unit
    is appended, the buffer being trimmed before an opening parenthesis. *)
Fixpoint inner_text (b : str) (u : str) : str :=
  match u with
  | [] => b
  | c :: rest =>
      if (c =? LPAREN)%N then inner_text (trim b ++ [c]) rest
      else inner_text (b ++ [c]) rest
  end.

(** A prefix of the buffer that trimming the end never reaches: it is
    empty or ends in a code unit that is not whitespace. *)
Definition trim_stable (v : str) : Prop :=
  forall x, trimEnd (v ++ x) = v ++ trimEnd x.

(** A name of the grammar: clean, and without comma or parenthesis. *)
Definition name_ok (n : str) : bool :=
  clean_name n && forallb (fun c => negb (is_delim c)) n.

(** A forest of the grammar: leaves and single-keyed nodes with names of
    the grammar, at every depth. *)
Fixpoint well_formed (it : Item) : bool :=
  match it with
  | IString n => name_ok n
  | IRecord [(k, children)] => name_ok k && forallb well_formed children
  | IRecord _ => false
  end.

Section Join.

Variable f : Item -> str.

(** The entries of a sequence, separated by a comma and a space. *)
Fixpoint join_items (l : list Item) : str :=
  match l with
  | [] => []
  | c :: rest =>
      match rest with
      | [] => f c
      | _ :: _ => f c ++ js ", " ++ join_items rest
      end
  end.

End Join.

(** The text of an item in the notation the parser reads, as in
    "a, b(c, d), e": a name, for a node followed by its children in
    parentheses. *)
Fixpoint notation_item (it : Item) : str :=
  match it with
  | IString n => n
  | IRecord [] => []
  | IRecord ((k, children) :: _) =>
      k ++ LPAREN :: join_items notation_item children ++ [RPAREN]
  end.

Definition notation (l : list Item) : str := join_items notation_item l.

(** The loop state after the text of an item read at depth 0: the name of
    a leaf waits in the buffer, a node is in the sequence. *)
Definition after_item (st : scan_state) (it : Item) : scan_state :=
  match it with
  | IString n => append_text st n
  | IRecord _ => mkState (items st ++ [it]) [] 0
  end.

(** The loop reads the notation of an item, at depth 0 and after
    whitespace, into [after_item]; the parentheses of the notation match. *)
Definition reads_item (it : Item) : Prop :=
  (forall st rest,
     depth st = 0%Z -> all_whitespace (buffer st) ->
     scan parseInput (notation_item it ++ rest) st
     = scan parseInput rest (after_item st it))
  /\ (forall d, (0 <= d)%Z -> nesting d (notation_item it) = Some d).

(** No object without properties is reached through first properties, the
    only ones the sorter and the printer read. *)
Fixpoint has_keys (it : Item) : bool :=
  match it with
  | IString _ => true
  | IRecord [] => false
  | IRecord ((_, children) :: _) => forallb has_keys children
  end.
(** * Properties *)

(** ** Strings *)

Lemma is_whitespace_delim (c : char) :
  c = LPAREN \/ c = RPAREN \/ c = COMMA -> is_whitespace c = false.
Proof. intros [-> | [-> | ->]]; reflexivity. Qed.

Lemma length_trimStart (s : str) : length (trimStart s) <= length s.
Proof.
  induction s as [|c s IH]; simpl; [lia|].
  destruct (is_whitespace c); simpl; lia.
Qed.

Lemma length_trim (s : str) : length (trim s) <= length s.
Proof.
  unfold trim, trimEnd. rewrite length_rev.
  etransitivity; [apply length_trimStart|].
  rewrite length_rev. apply length_trimStart.
Qed.

Lemma slice_1_m1 (s : str) : slice s 1 (-1) = removelast (tl s).
Proof.
  destruct s as [|a t]; [reflexivity|].
  unfold slice. cbn [tl length].
  replace (1 <? 0)%Z with false by reflexivity.
  replace (-1 <? 0)%Z with true by reflexivity.
  rewrite Z.min_l by lia. rewrite Z.max_l by lia.
  change (Z.to_nat 1) with 1. cbn [skipn].
  rewrite removelast_firstn_len. f_equal. lia.
Qed.

Lemma length_slice_1_m1 (s : str) : length (slice s 1 (-1)) <= length s - 1.
Proof.
  rewrite slice_1_m1. destruct s as [|a t]; simpl; [lia|].
  rewrite removelast_firstn_len, length_firstn. lia.
Qed.

(** ** The recursion of the parser is bounded by the length of its input *)

Lemma bind_Ok {A B} (m : outcome A) (k : A -> outcome B) (b : B) :
  (x <- m ;; k x) = Ok b -> exists a, m = Ok a /\ k a = Ok b.
Proof. destruct m; simpl; intros H; try discriminate. eauto. Qed.

Lemma step_buffer_length rec st c st' :
  step rec st c = Ok st' -> length (buffer st') <= S (length (buffer st)).
Proof.
  unfold step. intros H.
  destruct (c =? LPAREN)%N.
  { pose proof (length_trim (buffer st)).
    destruct ((depth st =? 0)%Z && truthy (trim (buffer st)));
      inversion H; subst; simpl; rewrite ?length_app; simpl; lia. }
  destruct (c =? RPAREN)%N.
  { destruct (depth st - 1 =? 0)%Z.
    - apply bind_Ok in H as (children & _ & H).
      destruct (item_truthy (last_item (items st))).
      + destruct (last_item (items st)).
        * apply bind_Ok in H as (it' & _ & H). inversion H; simpl; lia.
        * inversion H; simpl; lia.
      + inversion H; simpl; lia.
    - inversion H; simpl. rewrite length_app; simpl; lia. }
  destruct ((c =? COMMA)%N && (depth st =? 0)%Z).
  { inversion H; simpl; lia. }
  inversion H; simpl. rewrite length_app; simpl; lia.
Qed.

Lemma step_ext rec1 rec2 st c :
  (forall s, length s <= length (buffer st) -> rec1 s = rec2 s) ->
  step rec1 st c = step rec2 st c.
Proof.
  intros Hrec. unfold step.
  destruct (c =? LPAREN)%N; [reflexivity|].
  destruct (c =? RPAREN)%N; [|reflexivity].
  destruct (depth st - 1 =? 0)%Z; [|reflexivity].
  rewrite Hrec; [reflexivity|].
  pose proof (length_slice_1_m1 (trim (buffer st ++ [c]))).
  pose proof (length_trim (buffer st ++ [c])).
  rewrite length_app in *. simpl in *. lia.
Qed.

Lemma scan_ext rec1 rec2 input : forall st,
  (forall s, length s < length (buffer st) + length input -> rec1 s = rec2 s) ->
  scan rec1 input st = scan rec2 input st.
Proof.
  induction input as [|c rest IH]; intros st Hrec; [reflexivity|].
  simpl in *. rewrite (@step_ext rec1 rec2) by (intros; apply Hrec; lia).
  destruct (step rec2 st c) as [st'| |] eqn:E; simpl; try reflexivity.
  apply IH. intros s Hs. apply Hrec.
  apply step_buffer_length in E. lia.
Qed.

Lemma step_total rec st c :
  (forall s, length s <= length (buffer st) -> rec s <> OutOfFuel) ->
  step rec st c <> OutOfFuel.
Proof.
  intros Hrec. unfold step.
  destruct (c =? LPAREN)%N.
  { destruct ((depth st =? 0)%Z && truthy (trim (buffer st))); discriminate. }
  destruct (c =? RPAREN)%N.
  { destruct (depth st - 1 =? 0)%Z; [|discriminate].
    destruct (rec (slice (trim (buffer st ++ [c])) 1 (-1))) eqn:E; simpl.
    - destruct (item_truthy (last_item (items st))); [|discriminate].
      destruct (last_item (items st)) as [[s|f]|]; simpl; discriminate.
    - discriminate.
    - exfalso. revert E. apply Hrec.
      pose proof (length_slice_1_m1 (trim (buffer st ++ [c]))).
      pose proof (length_trim (buffer st ++ [c])).
      rewrite length_app in *. simpl in *. lia. }
  destruct ((c =? COMMA)%N && (depth st =? 0)%Z); discriminate.
Qed.

Lemma scan_total rec input : forall st,
  (forall s, length s < length (buffer st) + length input -> rec s <> OutOfFuel) ->
  scan rec input st <> OutOfFuel.
Proof.
  induction input as [|c rest IH]; intros st Hrec; [discriminate|].
  simpl in *.
  destruct (step rec st c) as [st'| |] eqn:E; simpl.
  - apply IH. intros s Hs. apply Hrec.
    apply step_buffer_length in E. lia.
  - discriminate.
  - exfalso. revert E. apply step_total. intros; apply Hrec; lia.
Qed.

Lemma parse_fuel_total fuel : forall input,
  length input < fuel -> parse_fuel fuel input <> OutOfFuel.
Proof.
  induction fuel as [|fuel IH]; intros input Hlen; [lia|].
  simpl.
  destruct (scan (parse_fuel fuel) input init_state) eqn:E; simpl;
    try discriminate.
  exfalso. revert E. apply scan_total. simpl. intros s Hs. apply IH. lia.
Qed.

Lemma parse_fuel_stable fuel1 : forall fuel2 input,
  length input < fuel1 -> length input < fuel2 ->
  parse_fuel fuel1 input = parse_fuel fuel2 input.
Proof.
  induction fuel1 as [|fuel1 IH]; intros [|fuel2] input H1 H2; try lia.
  simpl. rewrite (@scan_ext (parse_fuel fuel1) (parse_fuel fuel2));
    [reflexivity|].
  simpl. intros s Hs. apply IH; lia.
Qed.

(** With more fuel than the input has code units the parser never runs out,
    and the result no longer depends on the fuel. *)
Lemma parse_fuel_enough fuel input :
  length input < fuel ->
  parse_fuel fuel input = parseInput input /\ parseInput input <> OutOfFuel.
Proof.
  intros H. split.
  - apply parse_fuel_stable; lia.
  - apply parse_fuel_total. lia.
Qed.

(** The recursive equation of [parseInput]: the loop, run with [parseInput]
    itself for the nested call, then the code after the loop. *)
Lemma parseInput_unfold input :
  parseInput input = (st <- scan parseInput input init_state ;; Ok (finish st)).
Proof.
  unfold parseInput at 1. simpl.
  rewrite (@scan_ext (parse_fuel (length input)) parseInput); [reflexivity|].
  simpl. intros s Hs. apply parse_fuel_stable; lia.
Qed.

(** ** The single-key representation of nodes *)

Lemma parsed_items_single_keyed (l : list Item) :
  Forall parsed_item l -> forallb single_keyed l = true.
Proof.
  intros H. apply forallb_forall. intros x Hx.
  rewrite Forall_forall in H. apply H, Hx.
Qed.

Lemma last_item_snoc (l : list Item) (x : Item) : last_item (l ++ [x]) = Some x.
Proof. unfold last_item. rewrite rev_app_distr. reflexivity. Qed.

Lemma last_item_None (l : list Item) : last_item l = None <-> l = [].
Proof.
  unfold last_item. split.
  - destruct l as [|a l] using rev_ind; [reflexivity|].
    rewrite rev_app_distr. discriminate.
  - intros ->. reflexivity.
Qed.

Lemma last_item_Some (l : list Item) (x : Item) :
  last_item l = Some x -> l = removelast l ++ [x].
Proof.
  destruct l as [|a l _] using rev_ind; [discriminate|].
  rewrite last_item_snoc. intros [= ->]. now rewrite removelast_last.
Qed.

Lemma str_eqb_refl (k : str) : str_eqb k k = true.
Proof. unfold str_eqb. destruct (list_eq_dec N.eq_dec k k); congruence. Qed.

Lemma truthy_nonempty (s : str) : truthy s = true <-> s <> [].
Proof. destruct s; simpl; split; congruence. Qed.

Lemma step_parsed rec st c st' :
  (forall s r, rec s = Ok r -> Forall parsed_item r) ->
  Forall parsed_item (items st) ->
  step rec st c = Ok st' ->
  Forall parsed_item (items st').
Proof.
  intros Hrec Hst. unfold step.
  destruct (c =? LPAREN)%N.
  { destruct (depth st =? 0)%Z; simpl.
    - destruct (truthy (trim (buffer st))) eqn:T; intros [= <-]; simpl; auto.
      apply Forall_app. split; [assumption|].
      constructor; [|constructor]. split; reflexivity.
    - intros [= <-]; assumption. }
  destruct (c =? RPAREN)%N.
  { destruct (depth st - 1 =? 0)%Z; [|intros [= <-]; assumption].
    intros H. apply bind_Ok in H as (children & Hc & H).
    apply Hrec in Hc.
    destruct (item_truthy (last_item (items st))) eqn:T;
      [|injection H as <-; assumption].
    destruct (last_item (items st)) as [it|] eqn:L;
      [|injection H as <-; assumption].
    apply bind_Ok in H as (it' & Hit & H). injection H as <-. simpl.
    apply last_item_Some in L. rewrite L in Hst.
    apply Forall_app in Hst as [Hinit Hlast].
    apply Forall_app. split; [assumption|].
    constructor; [|constructor].
    inversion Hlast as [|? ? [Hsk _] _]; subst.
    destruct it as [s|fields]; [discriminate|].
    simpl in Hit. injection Hit as <-.
    destruct fields as [|[k cs] [|? ?]]; try discriminate.
    simpl. rewrite str_eqb_refl. split; [|reflexivity].
    simpl. now apply parsed_items_single_keyed. }
  destruct ((c =? COMMA)%N && (depth st =? 0)%Z).
  { destruct (truthy (trim (buffer st))) eqn:T; intros [= <-]; simpl; auto.
    apply Forall_app. split; [assumption|].
    constructor; [|constructor]. split; [reflexivity|exact T]. }
  intros [= <-]; assumption.
Qed.

Lemma scan_parsed rec input : forall st st',
  (forall s r, rec s = Ok r -> Forall parsed_item r) ->
  Forall parsed_item (items st) ->
  scan rec input st = Ok st' ->
  Forall parsed_item (items st').
Proof.
  induction input as [|c rest IH]; intros st st' Hrec Hst; simpl.
  - intros [= <-]; assumption.
  - intros H. apply bind_Ok in H as (st1 & Hstep & H).
    eapply IH; [exact Hrec| |exact H].
    eapply step_parsed; eassumption.
Qed.

Lemma finish_parsed st :
  Forall parsed_item (items st) -> Forall parsed_item (finish st).
Proof.
  intros H. unfold finish.
  destruct (truthy (trim (buffer st))) eqn:T; [|assumption].
  apply Forall_app. split; [assumption|].
  constructor; [|constructor]. split; [reflexivity|exact T].
Qed.

Lemma parse_fuel_parsed fuel : forall input r,
  parse_fuel fuel input = Ok r -> Forall parsed_item r.
Proof.
  induction fuel as [|fuel IH]; intros input r; simpl; [discriminate|].
  intros H. apply bind_Ok in H as (st & Hscan & [= <-]).
  apply finish_parsed.
  eapply scan_parsed; [exact IH| |exact Hscan]. constructor.
Qed.

Lemma parseInput_parsed input r :
  parseInput input = Ok r -> Forall parsed_item r.
Proof. apply parse_fuel_parsed. Qed.

(** The items of every state the loop reaches are parser-made. *)
Lemma reachable_parsed pre st :
  scan parseInput pre init_state = Ok st -> Forall parsed_item (items st).
Proof.
  apply scan_parsed; [exact parseInput_parsed|constructor].
Qed.

Lemma scan_app rec a b st :
  scan rec (a ++ b) st = (st' <- scan rec a st ;; scan rec b st').
Proof.
  revert st. induction a as [|c a IH]; intros st; simpl; [reflexivity|].
  destruct (step rec st c); simpl; auto.
Qed.

(** ** Worked examples of the specification *)

(** C4: parsing "a, b(c, d), e" gives exactly the three items
    [Leaf a; Node b [Leaf c; Leaf d]; Leaf e]. *)
Theorem parse_round_trip_shape :
  parseInput (js "a, b(c, d), e")
  = Ok [Leaf (js "a"); Node (js "b") [Leaf (js "c"); Leaf (js "d")];
        Leaf (js "e")].
Proof. vm_compute. reflexivity. Qed.

(** C1: the shipped input parses, through the replacement of the whole
    sequence at the outer closing parenthesis, to
    [id, name, email, type(id, name, customFields(c1, c2, c3)), externalId];
    sorting that sequence orders the top level as
    [email, externalId, id, name, type] and the children of [type] as
    [customFields(c1, c2, c3), id, name]. *)
Theorem shipped_example_parse_and_sort (localeCompare : str -> str -> Z) :
  orders_shipped_names localeCompare ->
  scan parseInput (removelast shipped_input) init_state
    = Ok (mkState [] (removelast shipped_input) 1)
  /\ parseInput shipped_input = Ok shipped_items
  /\ sortItems localeCompare shipped_items = Ok shipped_sorted.
Proof.
  intros H. split; [vm_compute; reflexivity|].
  split; [vm_compute; reflexivity|].
  unfold sortItems.
  change (heights shipped_items) with 2.
  unfold shipped_items, shipped_sorted, Leaf, Node.
  repeat decide_comparison H.
  reflexivity.
Qed.

Lemma shipped_example_witness :
  orders_shipped_names codeUnitCompare
  /\ parseInput shipped_input = Ok shipped_items
  /\ sortItems codeUnitCompare shipped_items = Ok shipped_sorted.
Proof.
  assert (H : orders_shipped_names codeUnitCompare) by (intros a b _ _; reflexivity).
  split; [exact H|].
  exact (proj2 (shipped_example_parse_and_sort H)).
Defined.

(** ** A closing parenthesis after a leaf *)

(** C2: the parser does not return on every input: on "a,(b)" the group
    closes while the last item is the string "a", and the assignment of the
    children to it throws a TypeError. *)
Theorem parseInput_throws_after_leaf :
  parseInput (js "a,(b)") = Throw TypeError
  /\ parseInput (js "a,(b)") <> OutOfFuel.
Proof. split; [vm_compute; reflexivity|vm_compute; discriminate]. Qed.

(** C3: on "x, y, (z)" the closing parenthesis is reached with the result
    sequence [x, y], which holds no node; the group parses to [z], and the
    loop throws instead of replacing the sequence by [z]. *)
Theorem unnamed_group_after_leaves_throws :
  scan parseInput (js "x, y, (z") init_state
    = Ok (mkState [Leaf (js "x"); Leaf (js "y")] (js "(z") 1)
  /\ parseInput (js "z") = Ok [Leaf (js "z")]
  /\ step parseInput (mkState [Leaf (js "x"); Leaf (js "y")] (js "(z") 1) RPAREN
     = Throw TypeError
  /\ parseInput (js "x, y, (z)") = Throw TypeError.
Proof. repeat split; vm_compute; reflexivity. Qed.

(** C9: when a closing parenthesis returns the depth to 0, the parsed
    children replace the whole sequence only if the sequence is empty;
    otherwise they are assigned to the last item, whatever it is: a node
    (placeholder or already filled) receives them, a leaf makes the
    assignment, and with it every input continuing this prefix, throw a
    TypeError, as "a,(b)" does. *)
Theorem close_group_assigns_to_last_item (pre : str) (st : scan_state)
    (children : list Item) :
  scan parseInput pre init_state = Ok st ->
  depth st = 1%Z ->
  parseInput (slice (trim (buffer st ++ [RPAREN])) 1 (-1)) = Ok children ->
  match last_item (items st) with
  | None =>
      items st = []
      /\ step parseInput st RPAREN = Ok (mkState children [] 0)
  | Some (IString name) =>
      step parseInput st RPAREN = Throw TypeError
      /\ forall post, parseInput (pre ++ RPAREN :: post) = Throw TypeError
  | Some (IRecord fields) =>
      exists name old,
        fields = [(name, old)]
        /\ step parseInput st RPAREN
           = Ok (mkState (removelast (items st) ++ [Node name children]) [] 0)
  end
  /\ parseInput (js "a,(b)") = Throw TypeError.
Proof.
  intros Hscan Hd Hrec. split; [|vm_compute; reflexivity].
  pose proof (reachable_parsed _ Hscan) as Hp.
  assert (Hstep : step parseInput st RPAREN =
    (let lastItem := last_item (items st) in
     if item_truthy lastItem then
       match lastItem with
       | Some it => it' <- assign_children it children ;;
                    Ok (mkState (removelast (items st) ++ [it']) [] 0)
       | None => Ok (mkState children [] 0)
       end
     else Ok (mkState children [] 0))).
  { unfold step. change (RPAREN =? LPAREN)%N with false.
    change (RPAREN =? RPAREN)%N with true. cbv iota.
    rewrite Hd. change (1 - 1 =? 0)%Z with true. cbv iota.
    rewrite Hrec. reflexivity. }
  destruct (last_item (items st)) as [it|] eqn:L.
  - pose proof (last_item_Some _ L) as E. rewrite E in Hp.
    apply Forall_app in Hp as [_ Hlast].
    inversion Hlast as [|? ? [Hsk Ht] _]; subst.
    cbv zeta in Hstep. rewrite Ht in Hstep.
    destruct it as [name|fields].
    + split; [exact Hstep|]. intros post.
      rewrite parseInput_unfold, scan_app, Hscan. simpl.
      rewrite Hstep. reflexivity.
    + destruct fields as [|[k cs] [|? ?]]; try discriminate.
      exists k, cs. split; [reflexivity|].
      rewrite Hstep. simpl. rewrite str_eqb_refl. reflexivity.
  - split; [now apply last_item_None|exact Hstep].
Qed.

Lemma close_group_assigns_to_last_item_witness :
  step parseInput (mkState [Leaf (js "a")] (js "(b") 1) RPAREN = Throw TypeError
  /\ step parseInput (mkState [Node (js "a") [Leaf (js "b")]] (js "(c") 1) RPAREN
     = Ok (mkState [Node (js "a") [Leaf (js "c")]] [] 0)
  /\ step parseInput (mkState [] (js "(b") 1) RPAREN
     = Ok (mkState [Leaf (js "b")] [] 0).
Proof.
  split; [|split].
  - exact (proj1 (proj1 (@close_group_assigns_to_last_item
      (js "a,(b") (mkState [Leaf (js "a")] (js "(b") 1) [Leaf (js "b")]
      eq_refl eq_refl eq_refl))).
  - destruct (proj1 (@close_group_assigns_to_last_item
      (js "a(b),(c") (mkState [Node (js "a") [Leaf (js "b")]] (js "(c") 1)
      [Leaf (js "c")] eq_refl eq_refl eq_refl)) as (name & old & E & H).
    injection E as <- <-. exact H.
  - exact (proj2 (proj1 (@close_group_assigns_to_last_item
      (js "(b") (mkState [] (js "(b") 1) [Leaf (js "b")]
      eq_refl eq_refl eq_refl))).
Defined.

(** ** Sorter *)

Lemma consistent_total cmp (H : consistent_comparator cmp) a b :
  (cmp a b > 0)%Z -> (cmp b a <= 0)%Z.
Proof.
  intros Hab.
  destruct (Z.compare_spec (cmp b a) 0) as [E|L|G]; try lia.
  pose proof (cmp_trans_gt H _ _ _ Hab (Z.lt_gt _ _ G)) as Haa.
  rewrite (cmp_refl H) in Haa. lia.
Qed.

Lemma height_le_heights (x : Item) (l : list Item) :
  In x l -> height x <= heights l.
Proof.
  induction l as [|y l IH]; [intros []|].
  change (heights (y :: l)) with (Nat.max (height y) (heights l)).
  intros [->|Hin]; [lia|]. specialize (IH Hin). lia.
Qed.

Lemma heights_first_child k (cs : list Item) rest :
  heights cs < height (IRecord ((k, cs) :: rest)).
Proof.
  change (height (IRecord ((k, cs) :: rest)))
    with (S (Nat.max (heights cs) (pred (height (IRecord rest))))).
  lia.
Qed.

Section SorterFacts.

Variable localeCompare : str -> str -> Z.

Local Abbreviation cmp := (alphabetically localeCompare).

Lemma alphabetically_Ok a b v :
  cmp a b = Ok v -> v = localeCompare (name_of a) (name_of b).
Proof.
  unfold alphabetically, name_of.
  destruct (item_key a); [|discriminate]. now intros [= <-].
Qed.

Lemma alphabetically_keyed a b k :
  item_key a = Some k -> cmp a b = Ok (localeCompare (name_of a) (name_of b)).
Proof. unfold alphabetically, name_of. now intros ->. Qed.

Lemma alphabetically_fuel a b : cmp a b <> OutOfFuel.
Proof. unfold alphabetically. destruct (item_key a); discriminate. Qed.

Lemma sort_insert_In x l s :
  sort_insert cmp x l = Ok s -> forall y, In y s <-> y = x \/ In y l.
Proof.
  revert s. induction l as [|z l IH]; simpl; intros s.
  - intros [= <-] y. simpl. intuition.
  - intros H. apply bind_Ok in H as (v & _ & H).
    destruct (v <=? 0)%Z.
    + injection H as <-. intros y. simpl. intuition.
    + apply bind_Ok in H as (r & Hr & [= <-]). intros y.
      specialize (IH _ Hr y). simpl. intuition.
Qed.

Lemma array_sort_In l s :
  array_sort cmp l = Ok s -> forall y, In y s <-> In y l.
Proof.
  revert s. induction l as [|x l IH]; simpl; intros s.
  - intros [= <-]. tauto.
  - intros H. apply bind_Ok in H as (s0 & Hs0 & H). intros y.
    rewrite (sort_insert_In _ _ H y), (IH _ Hs0 y). intuition.
Qed.

Lemma sort_insert_fuel x l : sort_insert cmp x l <> OutOfFuel.
Proof.
  induction l as [|z l IH]; simpl; [discriminate|].
  destruct (cmp x z) eqn:E; simpl; try discriminate.
  - destruct (a <=? 0)%Z; [discriminate|].
    destruct (sort_insert cmp x l); simpl; congruence.
  - now apply alphabetically_fuel in E.
Qed.

Lemma array_sort_fuel l : array_sort cmp l <> OutOfFuel.
Proof.
  induction l as [|x l IH]; simpl; [discriminate|].
  destruct (array_sort cmp l); simpl; try congruence.
  apply sort_insert_fuel.
Qed.

Lemma sort_insert_keyed x k l :
  item_key x = Some k -> exists s, sort_insert cmp x l = Ok s.
Proof.
  intros Hk. induction l as [|z l [s IH]]; simpl; [eauto|].
  rewrite (@alphabetically_keyed x z k Hk). simpl.
  destruct (_ <=? 0)%Z; [eauto|]. rewrite IH. simpl. eauto.
Qed.

Lemma array_sort_keyed l :
  Forall (fun x => item_key x <> None) l -> exists s, array_sort cmp l = Ok s.
Proof.
  induction 1 as [|x l Hx _ [s IH]]; simpl; [eauto|].
  rewrite IH. simpl. destruct (item_key x) as [k|] eqn:E; [|congruence].
  eapply sort_insert_keyed; eassumption.
Qed.

(** The two fuel lemmas of the sorter. *)
Lemma for_of_mono (body1 body2 : Item -> outcome Item) l :
  (forall x, In x l -> body1 x <> OutOfFuel -> body2 x = body1 x) ->
  for_of body1 l <> OutOfFuel -> for_of body2 l = for_of body1 l.
Proof.
  induction l as [|x l IH]; simpl; intros Hb Hne; [reflexivity|].
  destruct (body1 x) as [x'| |] eqn:E; simpl in *.
  - rewrite Hb, E by (auto; congruence). simpl.
    rewrite IH; auto.
    destruct (for_of body1 l); simpl in *; congruence.
  - rewrite Hb, E by (auto; congruence). reflexivity.
  - congruence.
Qed.

Lemma sort_children_mono (rec1 rec2 : list Item -> outcome (list Item)) x :
  (forall k cs rest, x = IRecord ((k, cs) :: rest) ->
     rec1 cs <> OutOfFuel -> rec2 cs = rec1 cs) ->
  sort_children rec1 x <> OutOfFuel ->
  sort_children rec2 x = sort_children rec1 x.
Proof.
  destruct x as [s|[|[k cs] rest]]; simpl; intros Hrec Hne; try reflexivity.
  rewrite (Hrec k cs rest eq_refl); [reflexivity|].
  destruct (rec1 cs); simpl in *; congruence.
Qed.

Lemma sort_fuel_mono fuel : forall fuel' items,
  fuel <= fuel' ->
  sort_fuel localeCompare fuel items <> OutOfFuel ->
  sort_fuel localeCompare fuel' items = sort_fuel localeCompare fuel items.
Proof.
  induction fuel as [|fuel IH]; intros [|fuel'] items Hle; simpl;
    try congruence; try lia.
  destruct (array_sort cmp items) as [sorted| |]; simpl; try reflexivity.
  intros Hne. apply for_of_mono; [|exact Hne].
  intros x _. apply sort_children_mono.
  intros k cs rest _. apply IH. lia.
Qed.

Lemma for_of_fuel (body : Item -> outcome Item) l :
  (forall x, In x l -> body x <> OutOfFuel) -> for_of body l <> OutOfFuel.
Proof.
  induction l as [|x l IH]; simpl; intros Hb; [discriminate|].
  specialize (IH (fun y Hy => Hb y (or_intror Hy))).
  destruct (body x) eqn:E; simpl; try discriminate.
  - destruct (for_of body l); simpl; congruence.
  - exfalso. exact (Hb x (or_introl eq_refl) E).
Qed.

Lemma sort_fuel_total fuel : forall items,
  heights items < fuel -> sort_fuel localeCompare fuel items <> OutOfFuel.
Proof.
  induction fuel as [|fuel IH]; intros items Hh; [lia|]. simpl.
  destruct (array_sort cmp items) as [sorted| |] eqn:E; simpl;
    try discriminate.
  - apply for_of_fuel. intros x Hx.
    apply (array_sort_In _ E), height_le_heights in Hx.
    destruct x as [s|[|[k cs] rest]]; simpl; try discriminate.
    pose proof (heights_first_child k cs rest).
    destruct (sort_fuel localeCompare fuel cs) eqn:E'; simpl;
      try discriminate.
    exfalso. revert E'. apply IH. lia.
  - now apply array_sort_fuel in E.
Qed.

(** With more fuel than the items are high the sorter never runs out, and
    a run that ended with some fuel ends the same way in [sortItems]. *)
Lemma sortItems_of_fuel fuel items :
  sort_fuel localeCompare fuel items <> OutOfFuel ->
  sortItems localeCompare items = sort_fuel localeCompare fuel items.
Proof.
  intros Hne. unfold sortItems.
  pose proof (@sort_fuel_total (S (heights items)) items (Nat.lt_succ_diag_r _)) as Ht.
  destruct (Nat.le_ge_cases fuel (S (heights items))) as [Hle|Hge].
  - apply sort_fuel_mono; assumption.
  - symmetry. apply sort_fuel_mono; assumption.
Qed.

End SorterFacts.

Section SorterOrder.

Variable localeCompare : str -> str -> Z.
Hypothesis consistent : consistent_comparator localeCompare.

Local Abbreviation cmp := (alphabetically localeCompare).
Local Abbreviation le :=
  (fun a b => (localeCompare (name_of a) (name_of b) <= 0)%Z).

Lemma sort_insert_head x l s :
  sort_insert cmp x l = Ok s ->
  s = x :: l \/ exists z l' s', l = z :: l' /\ s = z :: s'.
Proof.
  destruct l as [|z l]; simpl.
  - intros [= <-]. now left.
  - intros H. apply bind_Ok in H as (v & _ & H).
    destruct (v <=? 0)%Z.
    + injection H as <-. now left.
    + apply bind_Ok in H as (r & _ & [= <-]). right. eauto.
Qed.

Lemma sort_insert_sorted x l : forall s,
  name_sorted localeCompare l ->
  sort_insert cmp x l = Ok s ->
  name_sorted localeCompare s.
Proof.
  unfold name_sorted.
  induction l as [|y l IH]; simpl; intros s Hl H.
  - injection H as <-. repeat constructor.
  - apply bind_Ok in H as (v & Hv & H).
    apply alphabetically_Ok in Hv.
    destruct (v <=? 0)%Z eqn:Hle.
    + injection H as <-. constructor; [assumption|].
      constructor. apply Z.leb_le in Hle. lia.
    + apply bind_Ok in H as (r & Hr & [= <-]).
      apply Z.leb_gt in Hle.
      inversion Hl as [|? ? Hl' Hhd]; subst.
      constructor; [now apply IH|].
      destruct (sort_insert_head _ _ Hr) as [->|(z & l' & s' & -> & ->)].
      * constructor. apply (consistent_total consistent). lia.
      * inversion Hhd; subst. now constructor.
Qed.

Lemma array_sort_sorted l : forall s,
  array_sort cmp l = Ok s -> name_sorted localeCompare s.
Proof.
  induction l as [|x l IH]; simpl; intros s H.
  - injection H as <-. constructor.
  - apply bind_Ok in H as (s0 & Hs0 & H).
    eapply sort_insert_sorted; [|exact H]. now apply IH.
Qed.

Lemma sort_insert_front x k l :
  item_key x = Some k -> HdRel le x l -> sort_insert cmp x l = Ok (x :: l).
Proof.
  intros Hk Hhd. destruct l as [|y l]; [reflexivity|]. simpl.
  rewrite (@alphabetically_keyed localeCompare x y k Hk). simpl.
  inversion Hhd as [|? ? Hle]; subst.
  apply Z.leb_le in Hle. now rewrite Hle.
Qed.

Lemma array_sort_fixed s :
  name_sorted localeCompare s ->
  Forall (fun x => item_key x <> None) s ->
  array_sort cmp s = Ok s.
Proof.
  induction 1 as [|x l Hl IH Hhd]; intros Hk; [reflexivity|].
  inversion Hk as [|? ? Hx Hk']; subst. simpl.
  rewrite IH by assumption. simpl.
  destruct (item_key x) as [k|] eqn:E; [|congruence].
  eapply sort_insert_front; eassumption.
Qed.

Lemma for_of_Forall2 (body : Item -> outcome Item) l : forall l',
  for_of body l = Ok l' -> Forall2 (fun a b => body a = Ok b) l l'.
Proof.
  induction l as [|x l IH]; simpl; intros l' H.
  - injection H as <-. constructor.
  - apply bind_Ok in H as (x' & Hx & H).
    apply bind_Ok in H as (r & Hr & [= <-]).
    constructor; auto.
Qed.

Lemma sort_children_key rec a b :
  sort_children rec a = Ok b ->
  item_key b = item_key a /\ item_key a <> None.
Proof.
  destruct a as [s|[|[k cs] rest]]; simpl.
  - intros [= <-]. split; [reflexivity|discriminate].
  - discriminate.
  - intros H. apply bind_Ok in H as (c' & _ & [= <-]).
    split; [reflexivity|discriminate].
Qed.

Lemma name_sorted_Forall2 l l' :
  Forall2 (fun a b => item_key b = item_key a) l l' ->
  name_sorted localeCompare l -> name_sorted localeCompare l'.
Proof.
  unfold name_sorted.
  induction 1 as [|a b l l' Hab Hll IH]; intros Hs; [constructor|].
  inversion Hs as [|? ? Hs' Hhd]; subst.
  constructor; [auto|].
  destruct Hll as [|a' b' l l' Hab' _]; [constructor|].
  inversion Hhd; subst. constructor.
  unfold name_of in *. now rewrite Hab, Hab'.
Qed.

Lemma sort_fuel_idempotent fuel : forall items s,
  sort_fuel localeCompare fuel items = Ok s ->
  sort_fuel localeCompare fuel s = Ok s.
Proof.
  induction fuel as [|fuel IH]; intros items s; simpl; [discriminate|].
  intros H. apply bind_Ok in H as (sorted & Hsorted & Hloop).
  apply array_sort_sorted in Hsorted.
  apply for_of_Forall2 in Hloop.
  assert (Hkeys : Forall2 (fun a b => item_key b = item_key a) sorted s).
  { eapply Forall2_impl; [|exact Hloop].
    intros a b Hab. now apply sort_children_key in Hab. }
  rewrite array_sort_fixed; simpl.
  - clear Hkeys Hsorted.
    induction Hloop as [|a b l l' Hab _ IHl]; [reflexivity|]. simpl.
    rewrite IHl.
    destruct a as [n|[|[k cs] rest]]; simpl in Hab.
    + injection Hab as <-. reflexivity.
    + discriminate.
    + apply bind_Ok in Hab as (c' & Hc & [= <-]). simpl.
      now rewrite (IH _ _ Hc).
  - eapply name_sorted_Forall2; eassumption.
  - clear Hkeys Hsorted.
    induction Hloop as [|a b l l' Hab _ IHl]; constructor; [|assumption].
    apply sort_children_key in Hab as [-> Hne]. exact Hne.
Qed.

End SorterOrder.

Lemma single_keyed_key (x : Item) :
  single_keyed x = true -> item_key x <> None.
Proof.
  destruct x as [s|[|[k cs] [|? ?]]]; simpl; congruence.
Qed.

Lemma for_of_Forall (Q : Item -> Prop) (body : Item -> outcome Item) l :
  (forall x, In x l -> exists y, body x = Ok y /\ Q y) ->
  exists l', for_of body l = Ok l' /\ Forall Q l'.
Proof.
  induction l as [|x l IH]; simpl; intros Hb; [eauto|].
  destruct (Hb x (or_introl eq_refl)) as (y & Hy & Qy).
  destruct IH as (l' & Hl' & Ql'); [auto|].
  rewrite Hy, Hl'. simpl. eauto.
Qed.

(** On single-keyed items the sorter returns, and its result is
    single-keyed. *)
Lemma sort_fuel_single_keyed localeCompare fuel : forall items,
  heights items < fuel ->
  forallb single_keyed items = true ->
  exists s, sort_fuel localeCompare fuel items = Ok s
            /\ forallb single_keyed s = true.
Proof.
  induction fuel as [|fuel IH]; intros items Hh Hsk; [lia|]. simpl.
  rewrite forallb_forall in Hsk.
  destruct (@array_sort_keyed localeCompare items) as [sorted Hsorted].
  { apply Forall_forall. intros x Hx. now apply single_keyed_key, Hsk. }
  rewrite Hsorted. simpl.
  destruct (@for_of_Forall (fun y => single_keyed y = true)
              (sort_children (sort_fuel localeCompare fuel)) sorted)
    as (s & Hs & Hall).
  - intros x Hx. apply (@array_sort_In _ _ _ Hsorted) in Hx.
    pose proof (height_le_heights _ _ Hx) as Hhx.
    specialize (Hsk x Hx).
    destruct x as [n|[|[k cs] [|? ?]]]; simpl in Hsk; try discriminate.
    + exists (IString n). split; reflexivity.
    + pose proof (heights_first_child k cs []).
      destruct (IH cs) as (c' & Hc' & Hskc); [lia|exact Hsk|].
      exists (IRecord [(k, c')]). simpl. rewrite Hc'. simpl. auto.
  - exists s. split; [exact Hs|].
    apply forallb_forall. now apply Forall_forall.
Qed.

(** C6: sorting is idempotent.  On single-keyed items [sortItems] returns,
    and whenever it returns a sequence, calling it again on that sequence
    returns the same sequence, nested children included. *)
Theorem sortItems_idempotent (localeCompare : str -> str -> Z)
    (items : list Item) :
  consistent_comparator localeCompare ->
  (forallb single_keyed items = true ->
   exists s, sortItems localeCompare items = Ok s)
  /\ (forall s, sortItems localeCompare items = Ok s ->
                sortItems localeCompare s = Ok s).
Proof.
  intros Hc. split.
  - intros Hsk.
    destruct (@sort_fuel_single_keyed localeCompare (S (heights items)) items)
      as (s & Hs & _); [lia|exact Hsk|].
    exists s. exact Hs.
  - intros s Hs. unfold sortItems in Hs.
    apply (sort_fuel_idempotent Hc) in Hs.
    rewrite <- Hs. apply sortItems_of_fuel. congruence.
Qed.

Lemma codeUnitCompare_refl a : codeUnitCompare a a = 0%Z.
Proof. induction a as [|x a IH]; simpl; [reflexivity|]. now rewrite N.compare_refl. Qed.

Lemma codeUnitCompare_eq a : forall b, codeUnitCompare a b = 0%Z -> a = b.
Proof.
  induction a as [|x a IH]; intros [|y b]; simpl; try discriminate; auto.
  destruct (N.compare_spec x y) as [Exy| |]; try discriminate.
  intros Hab. subst. f_equal. auto.
Qed.

Lemma codeUnitCompare_antisym a : forall b,
  codeUnitCompare b a = (- codeUnitCompare a b)%Z.
Proof.
  induction a as [|x a IH]; intros [|y b]; simpl; try reflexivity.
  rewrite (N.compare_antisym x y).
  destruct (N.compare x y); simpl; auto.
Qed.

Lemma codeUnitCompare_trans_lt a : forall b c,
  (codeUnitCompare a b < 0)%Z -> (codeUnitCompare b c < 0)%Z ->
  (codeUnitCompare a c < 0)%Z.
Proof.
  induction a as [|x a IH]; intros [|y b] [|z c]; simpl; try lia.
  destruct (N.compare_spec x y), (N.compare_spec y z), (N.compare_spec x z);
    subst; try lia.
  apply IH.
Qed.

Lemma codeUnitCompare_consistent : consistent_comparator codeUnitCompare.
Proof.
  constructor.
  - apply codeUnitCompare_refl.
  - intros a b H. apply codeUnitCompare_eq in H. subst.
    apply codeUnitCompare_refl.
  - intros a b c H1 H2. apply codeUnitCompare_eq in H1, H2. subst.
    apply codeUnitCompare_refl.
  - apply codeUnitCompare_trans_lt.
  - intros a b c H1 H2.
    rewrite (codeUnitCompare_antisym c a).
    rewrite (codeUnitCompare_antisym b a) in H1.
    rewrite (codeUnitCompare_antisym c b) in H2.
    pose proof (@codeUnitCompare_trans_lt c b a). lia.
Qed.

Lemma sortItems_idempotent_witness :
  consistent_comparator codeUnitCompare
  /\ sortItems codeUnitCompare
       [Node (js "b") [Leaf (js "z"); Leaf (js "a")]; Leaf (js "a")]
     = Ok [Leaf (js "a"); Node (js "b") [Leaf (js "a"); Leaf (js "z")]]
  /\ sortItems codeUnitCompare
       [Leaf (js "a"); Node (js "b") [Leaf (js "a"); Leaf (js "z")]]
     = Ok [Leaf (js "a"); Node (js "b") [Leaf (js "a"); Leaf (js "z")]].
Proof.
  split; [exact codeUnitCompare_consistent|].
  split; [reflexivity|].
  apply (proj2 (@sortItems_idempotent codeUnitCompare
           [Node (js "b") [Leaf (js "z"); Leaf (js "a")]; Leaf (js "a")]
           codeUnitCompare_consistent)).
  reflexivity.
Defined.

(** ** Printer *)

Lemma repeat_two_spaces (n : nat) :
  repeat_str (js "  ") n = repeat SPACE (2 * n).
Proof.
  induction n as [|n IH]; [reflexivity|].
  replace (2 * S n) with (S (S (2 * n))) by lia.
  simpl repeat_str. rewrite IH. reflexivity.
Qed.

Lemma console_log_line indent name out :
  console_log_item indent name out = out ++ [line_of (indent, name)].
Proof. unfold console_log_item, line_of. now rewrite repeat_two_spaces. Qed.

Lemma print_each_outline depth (items : list Item) :
  Forall (fun c => single_keyed c = true -> forall indent out,
            print_item indent c out
            = (out ++ map line_of (outline_item indent c), Ok tt)) items ->
  forallb single_keyed items = true ->
  forall out,
    print_each (print_item depth) items out
    = (out ++ map line_of (outline depth items), Ok tt).
Proof.
  unfold outline.
  induction 1 as [|c cs Hc _ IH]; intros Hsk out; simpl.
  - now rewrite app_nil_r.
  - simpl in Hsk. apply andb_true_iff in Hsk as [Hc1 Hcs].
    rewrite (Hc Hc1), (IH Hcs), map_app, app_assoc. reflexivity.
Qed.

Lemma print_item_outline (it : Item) :
  single_keyed it = true ->
  forall indent out,
    print_item indent it out = (out ++ map line_of (outline_item indent it), Ok tt).
Proof.
  induction it as [s|fields IH] using Item_nested_ind; intros Hsk indent out.
  - simpl. now rewrite console_log_line.
  - destruct fields as [|[k cs] [|? ?]]; try discriminate.
    inversion IH as [|? ? Hcs _]; subst.
    cbn [print_item outline_item map].
    rewrite (print_each_outline (S indent) Hcs Hsk), console_log_line.
    unfold outline. rewrite <- app_assoc. reflexivity.
Qed.

Lemma printItems_outline (items : list Item) indent out :
  forallb single_keyed items = true ->
  printItems items indent out = (out ++ map line_of (outline indent items), Ok tt).
Proof.
  intros Hsk. apply print_each_outline; [|exact Hsk].
  apply Forall_forall. intros c _. apply print_item_outline.
Qed.

Lemma count_items_app (a b : list Item) :
  count_items (a ++ b) = count_items a + count_items b.
Proof. induction a as [|x a IH]; simpl; [reflexivity|]. rewrite IH. lia. Qed.

Lemma outline_item_count (it : Item) :
  single_keyed it = true ->
  forall depth, length (outline_item depth it) = count_item it.
Proof.
  induction it as [s|fields IH] using Item_nested_ind; intros Hsk depth.
  - reflexivity.
  - destruct fields as [|[k cs] [|? ?]]; try discriminate.
    inversion IH as [|? ? Hcs _]; subst. simpl in Hcs, Hsk.
    cbn [outline_item count_item fold_right snd length]. f_equal.
    rewrite Nat.add_0_r. clear IH.
    induction Hcs as [|c cs Hc _ IHcs]; [reflexivity|].
    simpl in Hsk. apply andb_true_iff in Hsk as [Hc1 Hcs1].
    cbn [flat_map fold_right]. rewrite length_app, (Hc Hc1), (IHcs Hcs1).
    reflexivity.
Qed.

Lemma outline_count (items : list Item) depth :
  forallb single_keyed items = true ->
  length (outline depth items) = count_items items.
Proof.
  unfold outline. induction items as [|c cs IH]; intros Hsk; [reflexivity|].
  simpl in Hsk. apply andb_true_iff in Hsk as [Hc Hcs].
  cbn [flat_map count_items fold_right].
  rewrite length_app, (outline_item_count _ Hc), (IH Hcs). reflexivity.
Qed.

(** C7: [printItems] writes one line for every item at every depth, in
    pre-order (a node's children, at indentation one greater, follow its own
    line and precede its next sibling); the line of an item is twice its
    depth in spaces, then "- ", then its name. *)
Theorem printItems_lines (items : list Item) (indent : nat) (out : console) :
  forallb single_keyed items = true ->
  printItems items indent out
    = (out ++ map line_of (outline indent items), Ok tt)
  /\ length (map line_of (outline indent items)) = count_items items
  /\ forall name children rest,
       outline indent (Node name children :: rest)
       = (indent, name) :: outline (S indent) children ++ outline indent rest.
Proof.
  intros Hsk. split; [now apply printItems_outline|].
  split; [rewrite length_map; now apply outline_count|].
  reflexivity.
Qed.

Lemma printItems_lines_witness :
  printItems [Node (js "b") [Leaf (js "z"); Leaf (js "a")]; Leaf (js "a")] 0 []
  = ([js "- b"; js "  - z"; js "  - a"; js "- a"], Ok tt).
Proof.
  exact (proj1 (@printItems_lines
    [Node (js "b") [Leaf (js "z"); Leaf (js "a")]; Leaf (js "a")] 0 []
    eq_refl)).
Defined.

(** C8: every object the parser builds has exactly one property, its name
    mapped to its children; the sorter keeps that shape and, like the
    printer, runs without an exception on it; on such an object the first
    key is the name. *)
Theorem single_key_invariant :
  (forall input items,
     parseInput input = Ok items -> forallb single_keyed items = true)
  /\ (forall localeCompare items,
        forallb single_keyed items = true ->
        exists s, sortItems localeCompare items = Ok s
                  /\ forallb single_keyed s = true)
  /\ (forall items indent out,
        forallb single_keyed items = true ->
        snd (printItems items indent out) = Ok tt)
  /\ (forall fields,
        single_keyed (IRecord fields) = true ->
        exists name children,
          fields = [(name, children)]
          /\ item_key (IRecord fields) = Some name).
Proof.
  split; [|split; [|split]].
  - intros input items H.
    apply parsed_items_single_keyed. eapply parseInput_parsed, H.
  - intros localeCompare items H.
    apply sort_fuel_single_keyed; [lia|exact H].
  - intros items indent out H. now rewrite printItems_outline.
  - intros [|[k cs] [|? ?]]; try discriminate. eauto.
Qed.

Lemma single_key_invariant_witness :
  forallb single_keyed shipped_items = true
  /\ (exists s, sortItems codeUnitCompare shipped_items = Ok s
                /\ forallb single_keyed s = true)
  /\ snd (printItems shipped_items 0 []) = Ok tt.
Proof.
  destruct single_key_invariant as (Hparse & Hsort & Hprint & _).
  pose proof (Hparse shipped_input shipped_items eq_refl) as H.
  split; [exact H|]. split.
  - exact (Hsort codeUnitCompare shipped_items H).
  - exact (Hprint shipped_items 0 [] H).
Defined.

(** ** Trimming *)

Lemma trimStart_app_nonws (l : str) (c : char) (r : str) :
  is_whitespace c = false -> trimStart (l ++ c :: r) = trimStart l ++ c :: r.
Proof.
  intros Hc. induction l as [|x l IH]; simpl.
  - now rewrite Hc.
  - destruct (is_whitespace x); [exact IH|reflexivity].
Qed.

Lemma trimEnd_cons_nonws (c : char) (s : str) :
  is_whitespace c = false -> trimEnd (c :: s) = c :: trimEnd s.
Proof.
  intros Hc. unfold trimEnd. simpl rev.
  rewrite trimStart_app_nonws by exact Hc.
  now rewrite rev_app_distr.
Qed.

Lemma trimEnd_snoc_nonws (s : str) (c : char) :
  is_whitespace c = false -> trimEnd (s ++ [c]) = s ++ [c].
Proof.
  intros Hc. unfold trimEnd. rewrite rev_app_distr. simpl.
  rewrite Hc. simpl. now rewrite rev_involutive.
Qed.

Lemma trim_cons_nonws (c : char) (s : str) :
  is_whitespace c = false -> trim (c :: s) = c :: trimEnd s.
Proof.
  intros Hc. unfold trim. simpl. rewrite Hc.
  now apply trimEnd_cons_nonws.
Qed.

Lemma occurrences_app c a b :
  occurrences c (a ++ b) = (occurrences c a + occurrences c b)%Z.
Proof. unfold occurrences. rewrite count_occ_app. apply Nat2Z.inj_add. Qed.

Lemma occurrences_trimStart c s :
  is_whitespace c = false -> occurrences c (trimStart s) = occurrences c s.
Proof.
  intros Hc. unfold occurrences. induction s as [|x s IH]; [reflexivity|].
  simpl. destruct (is_whitespace x) eqn:Hx; [|reflexivity].
  rewrite IH. destruct (N.eq_dec x c); [congruence|reflexivity].
Qed.

Lemma occurrences_rev c s : occurrences c (rev s) = occurrences c s.
Proof. unfold occurrences. now rewrite count_occ_rev. Qed.

Lemma occurrences_trim c s :
  is_whitespace c = false -> occurrences c (trim s) = occurrences c s.
Proof.
  intros Hc. unfold trim, trimEnd.
  now rewrite occurrences_rev, occurrences_trimStart, occurrences_rev,
    occurrences_trimStart.
Qed.

(** ** The loop body, case by case *)

Lemma step_open rec st :
  step rec st LPAREN
  = Ok (if (depth st =? 0)%Z && truthy (trim (buffer st))
        then mkState (items st ++ [Node (trim (buffer st)) []]) [LPAREN]
                     (depth st + 1)
        else mkState (items st) (trim (buffer st) ++ [LPAREN]) (depth st + 1)).
Proof.
  unfold step. change (LPAREN =? LPAREN)%N with true. cbv iota.
  destruct ((depth st =? 0)%Z && truthy (trim (buffer st))); reflexivity.
Qed.

Lemma step_close_inner rec st :
  (depth st - 1)%Z <> 0%Z ->
  step rec st RPAREN
  = Ok (mkState (items st) (buffer st ++ [RPAREN]) (depth st - 1)).
Proof.
  intros H. unfold step. change (RPAREN =? LPAREN)%N with false.
  change (RPAREN =? RPAREN)%N with true. cbv iota.
  apply Z.eqb_neq in H. now rewrite H.
Qed.

Lemma step_comma_top rec st :
  depth st = 0%Z ->
  step rec st COMMA
  = Ok (mkState (if truthy (trim (buffer st))
                 then items st ++ [Leaf (trim (buffer st))] else items st)
                [] 0).
Proof.
  intros H. unfold step. change (COMMA =? LPAREN)%N with false.
  change (COMMA =? RPAREN)%N with false. change (COMMA =? COMMA)%N with true.
  cbv iota. rewrite H. reflexivity.
Qed.

Lemma step_text rec st c :
  c <> LPAREN -> c <> RPAREN -> (c <> COMMA \/ depth st <> 0%Z) ->
  step rec st c = Ok (mkState (items st) (buffer st ++ [c]) (depth st)).
Proof.
  intros H1 H2 H3. unfold step.
  apply N.eqb_neq in H1, H2. rewrite H1, H2.
  destruct H3 as [H3|H3].
  - apply N.eqb_neq in H3. now rewrite H3.
  - apply Z.eqb_neq in H3. rewrite H3. now rewrite andb_false_r.
Qed.

Lemma scan_snoc rec l c st st' :
  scan rec (l ++ [c]) st = Ok st' ->
  exists st1, scan rec l st = Ok st1 /\ step rec st1 c = Ok st'.
Proof.
  rewrite scan_app. intros H. apply bind_Ok in H as (st1 & H1 & H).
  exists st1. split; [exact H1|]. simpl in H.
  destruct (step rec st1 c); simpl in H; congruence.
Qed.

Lemma occurrences_snoc c s x :
  occurrences c (s ++ [x])
  = (occurrences c s + if N.eq_dec x c then 1 else 0)%Z.
Proof.
  rewrite occurrences_app. f_equal. unfold occurrences. simpl.
  destruct (N.eq_dec x c); reflexivity.
Qed.

(** ** Input that ends inside a group *)

Lemma scan_unclosed_inv rec input : forall st,
  scan rec input init_state = Ok st -> unclosed_inv rec input st.
Proof.
  induction input as [|c l IH] using rev_ind; intros st Hscan.
  { injection Hscan as <-. intros Hd. simpl in Hd. lia. }
  apply scan_snoc in Hscan as (st1 & Hl & Hstep).
  specialize (IH _ Hl). unfold unclosed_inv in *.
  destruct (N.eq_dec c LPAREN) as [->|Hno].
  { rewrite step_open in Hstep.
    destruct (Z.eq_dec (depth st1) 0) as [Hz|Hnz].
    - intros _. exists l, [], st1.
      unfold open_group. rewrite Hz in Hstep. simpl in Hstep.
      destruct (truthy (trim (buffer st1))) eqn:T; injection Hstep as <-;
        simpl.
      + exists []. repeat split; auto.
      + exists []. destruct (trim (buffer st1)); [|discriminate].
        repeat split; auto.
    - apply Z.eqb_neq in Hnz. rewrite Hnz in Hstep. simpl in Hstep.
      injection Hstep as <-. simpl. intros Hd.
      destruct IH as (pre & post & st0 & rest & -> & Hpre & H0 & Hit & Hb & Hc).
      { apply Z.eqb_neq in Hnz. lia. }
      exists pre, (post ++ [LPAREN]), st0, (trimEnd rest ++ [LPAREN]).
      rewrite Hb, trim_cons_nonws by reflexivity.
      repeat split; auto.
      + now rewrite <- app_assoc.
      + rewrite <- (trim_cons_nonws LPAREN rest) by reflexivity.
        rewrite !occurrences_snoc, !occurrences_trim by reflexivity.
        rewrite <- Hb. simpl. lia. }
  destruct (N.eq_dec c RPAREN) as [->|Hnc].
  { destruct (Z.eq_dec (depth st1 - 1) 0) as [Hz|Hnz].
    - intros Hd. exfalso.
      assert (depth st = 0%Z); [|lia].
      revert Hstep. unfold step.
      change (RPAREN =? LPAREN)%N with false.
      change (RPAREN =? RPAREN)%N with true. cbv iota.
      rewrite Hz. simpl.
      intros H. apply bind_Ok in H as (children & _ & H).
      destruct (item_truthy (last_item (items st1))).
      + destruct (last_item (items st1)).
        * apply bind_Ok in H as (it' & _ & [= <-]). reflexivity.
        * injection H as <-. reflexivity.
      + injection H as <-. reflexivity.
    - rewrite step_close_inner in Hstep by exact Hnz.
      injection Hstep as <-. simpl. intros Hd.
      destruct IH as (pre & post & st0 & rest & -> & Hpre & H0 & Hit & Hb & Hc);
        [lia|].
      exists pre, (post ++ [RPAREN]), st0, (rest ++ [RPAREN]).
      rewrite Hb. repeat split; auto.
      + now rewrite <- app_assoc.
      + change (LPAREN :: rest ++ [RPAREN]) with ((LPAREN :: rest) ++ [RPAREN]).
        rewrite !occurrences_snoc, <- Hb. simpl. lia. }
  destruct (N.eq_dec c COMMA) as [->|Hnm].
  { destruct (Z.eq_dec (depth st1) 0) as [Hz|Hnz].
    - rewrite step_comma_top in Hstep by exact Hz.
      injection Hstep as <-. simpl. lia.
    - rewrite step_text in Hstep by (auto; discriminate).
      injection Hstep as <-. simpl. intros Hd.
      destruct IH as (pre & post & st0 & rest & -> & Hpre & H0 & Hit & Hb & Hc);
        [lia|].
      exists pre, (post ++ [COMMA]), st0, (rest ++ [COMMA]).
      rewrite Hb. repeat split; auto.
      + now rewrite <- app_assoc.
      + change (LPAREN :: rest ++ [COMMA]) with ((LPAREN :: rest) ++ [COMMA]).
        rewrite !occurrences_snoc, <- Hb. simpl. lia. }
  rewrite step_text in Hstep by auto.
  injection Hstep as <-. simpl. intros Hd.
  destruct IH as (pre & post & st0 & rest & -> & Hpre & H0 & Hit & Hb & Hc);
    [lia|].
  exists pre, (post ++ [c]), st0, (rest ++ [c]).
  rewrite Hb. repeat split; auto.
  + now rewrite <- app_assoc.
  + change (LPAREN :: rest ++ [c]) with ((LPAREN :: rest) ++ [c]).
    rewrite !occurrences_snoc, <- Hb.
    destruct (N.eq_dec c LPAREN), (N.eq_dec c RPAREN); try contradiction. lia.
Qed.

(** C10, as the code has it: when the loop ends inside a group, the buffer
    begins with the parenthesis that opened the group at depth 0 and holds
    [depth] more opening than closing parentheses; trimmed, it is emitted as
    the final leaf.  The items before that leaf are those built up to the
    opening parenthesis, followed, when a name stood before the parenthesis,
    by the placeholder of that name with no children. *)
Theorem unclosed_group_final_leaf (input : str) (st : scan_state) :
  scan parseInput input init_state = Ok st ->
  (depth st > 0)%Z ->
  exists pre post st0 rest,
    input = pre ++ LPAREN :: post
    /\ scan parseInput pre init_state = Ok st0
    /\ depth st0 = 0%Z
    /\ trim (buffer st) = LPAREN :: rest
    /\ (occurrences LPAREN (LPAREN :: rest)
        - occurrences RPAREN (LPAREN :: rest))%Z = depth st
    /\ parseInput input = Ok (open_group st0 ++ [Leaf (LPAREN :: rest)]).
Proof.
  intros Hscan Hd.
  destruct (scan_unclosed_inv _ _ Hscan Hd)
    as (pre & post & st0 & rest & E & Hpre & H0 & Hit & Hb & Hc).
  exists pre, post, st0, (trimEnd rest).
  assert (Ht : trim (buffer st) = LPAREN :: trimEnd rest).
  { rewrite Hb. now apply trim_cons_nonws. }
  repeat split; auto.
  - rewrite <- Ht, !occurrences_trim by reflexivity. exact Hc.
  - rewrite parseInput_unfold, Hscan. simpl. unfold finish.
    rewrite Ht, Hit. reflexivity.
Qed.

Lemma unclosed_group_final_leaf_witness :
  exists pre post st0 rest,
    js "a(b" = pre ++ LPAREN :: post
    /\ scan parseInput pre init_state = Ok st0
    /\ depth st0 = 0%Z
    /\ trim (js "(b") = LPAREN :: rest
    /\ (occurrences LPAREN (LPAREN :: rest)
        - occurrences RPAREN (LPAREN :: rest))%Z = 1%Z
    /\ parseInput (js "a(b") = Ok (open_group st0 ++ [Leaf (LPAREN :: rest)]).
Proof.
  apply (@unclosed_group_final_leaf (js "a(b")
           (mkState [Node (js "a") []] (js "(b") 1)).
  - reflexivity.
  - simpl. lia.
Defined.

(** C10 as stated fails: on "a(b),(c" the loop ends at depth 1, and the most
    recently emitted node, [a], keeps the children [b] it was given when its
    own group closed. *)
Lemma unclosed_group_after_filled_node :
  ~ (forall input st items,
       scan parseInput input init_state = Ok st ->
       (depth st > 0)%Z ->
       parseInput input = Ok items ->
       forall name children,
         last_node items = Some (name, children) -> children = []).
Proof.
  intros H.
  specialize (H (js "a(b),(c")
                (mkState [Node (js "a") [Leaf (js "b")]] (js "(c") 1)
                [Node (js "a") [Leaf (js "b")]; Leaf (js "(c")]
                eq_refl eq_refl eq_refl (js "a") [Leaf (js "b")] eq_refl).
  discriminate H.
Qed.

(** ** More on trimming *)

Lemma trimStart_split (s : str) :
  (all_whitespace s /\ trimStart s = [])
  \/ exists w c r, s = w ++ c :: r /\ all_whitespace w
                   /\ is_whitespace c = false /\ trimStart s = c :: r.
Proof.
  unfold all_whitespace.
  induction s as [|x s IH]; [left; split; reflexivity|].
  simpl. destruct (is_whitespace x) eqn:Hx.
  - destruct IH as [[Hw Ht]|(w & c & r & -> & Hw & Hc & Ht)].
    + left. split; simpl; auto.
    + right. exists (x :: w), c, r. simpl. rewrite Hx. repeat split; auto.
  - right. exists [], x, s. repeat split; auto.
Qed.

Lemma trimStart_whitespace (w s : str) :
  all_whitespace w -> trimStart (w ++ s) = trimStart s.
Proof.
  unfold all_whitespace. induction w as [|x w IH]; simpl; [reflexivity|].
  intros H. apply andb_true_iff in H as [Hx Hw]. rewrite Hx. auto.
Qed.

Lemma all_whitespace_rev (w : str) : all_whitespace w -> all_whitespace (rev w).
Proof.
  unfold all_whitespace. rewrite !forallb_forall.
  intros H x Hx. apply H. now apply in_rev.
Qed.

Lemma trimEnd_whitespace (s w : str) :
  all_whitespace w -> trimEnd (s ++ w) = trimEnd s.
Proof.
  intros H. unfold trimEnd. rewrite rev_app_distr.
  now rewrite trimStart_whitespace by now apply all_whitespace_rev.
Qed.

Lemma trimEnd_app_nonws (l : str) (c : char) (r : str) :
  is_whitespace c = false -> trimEnd (l ++ c :: r) = l ++ c :: trimEnd r.
Proof.
  intros Hc. unfold trimEnd.
  rewrite rev_app_distr. simpl rev. rewrite <- app_assoc. simpl.
  rewrite trimStart_app_nonws by exact Hc.
  rewrite rev_app_distr. simpl. rewrite rev_involutive, <- app_assoc.
  reflexivity.
Qed.

Lemma trimEnd_all_whitespace (w : str) : all_whitespace w -> trimEnd w = [].
Proof.
  intros H. rewrite <- (app_nil_l w). now rewrite trimEnd_whitespace.
Qed.

Lemma trimStart_trimEnd (s : str) : trimStart (trimEnd s) = trimEnd (trimStart s).
Proof.
  destruct (trimStart_split s) as [[Hw Ht]|(w & c & r & -> & Hw & Hc & Ht)].
  - rewrite Ht, trimEnd_all_whitespace by exact Hw. reflexivity.
  - rewrite Ht, trimEnd_app_nonws, trimEnd_cons_nonws by exact Hc.
    rewrite trimStart_whitespace by exact Hw. simpl. now rewrite Hc.
Qed.

Lemma trimEnd_split (s : str) :
  exists w, s = trimEnd s ++ w /\ all_whitespace w.
Proof.
  unfold trimEnd.
  destruct (trimStart_split (rev s)) as [[Hw Ht]|(w & c & r & E & Hw & Hc & Ht)].
  - rewrite Ht. exists s. split; [reflexivity|].
    rewrite <- (rev_involutive s). now apply all_whitespace_rev.
  - rewrite Ht. exists (rev w). split; [|now apply all_whitespace_rev].
    rewrite <- (rev_involutive s), E, rev_app_distr. reflexivity.
Qed.

Lemma trimEnd_idempotent (s : str) : trimEnd (trimEnd s) = trimEnd s.
Proof.
  destruct (trimEnd_split s) as (w & E & Hw).
  rewrite E at 2. now rewrite trimEnd_whitespace.
Qed.

Lemma trim_trimEnd (s : str) : trim (trimEnd s) = trim s.
Proof.
  unfold trim. now rewrite trimStart_trimEnd, trimEnd_idempotent.
Qed.

Lemma trim_padded (w1 s w2 : str) :
  all_whitespace w1 -> all_whitespace w2 -> trim (w1 ++ s ++ w2) = trim s.
Proof.
  intros H1 H2. unfold trim.
  rewrite trimStart_whitespace by exact H1.
  rewrite <- !trimStart_trimEnd. now rewrite trimEnd_whitespace.
Qed.

Lemma no_delim_app (a b : str) : no_delim (a ++ b) <-> no_delim a /\ no_delim b.
Proof. unfold no_delim. rewrite forallb_app. apply andb_true_iff. Qed.

Lemma no_delim_trimEnd (s : str) : no_delim s -> no_delim (trimEnd s).
Proof.
  destruct (trimEnd_split s) as (w & E & _). rewrite E at 1.
  intros H. now apply no_delim_app in H.
Qed.

Lemma is_delim_cases (d : char) :
  is_delim d = true -> d = LPAREN \/ d = RPAREN \/ d = COMMA.
Proof.
  unfold is_delim. intros H.
  apply orb_true_iff in H as [H|H]; [apply orb_true_iff in H as [H|H]|];
    apply N.eqb_eq in H; auto.
Qed.

Lemma is_delim_nonws (d : char) : is_delim d = true -> is_whitespace d = false.
Proof. intros H. apply is_whitespace_delim. now apply is_delim_cases. Qed.

Lemma whitespace_no_delim (w : str) : all_whitespace w -> no_delim w.
Proof.
  unfold all_whitespace, no_delim. rewrite !forallb_forall.
  intros H x Hx. specialize (H x Hx).
  destruct (is_delim x) eqn:D; [|reflexivity].
  apply is_delim_nonws in D. congruence.
Qed.

(** ** Reading a token: the text of a name, then a delimiter *)

Lemma no_delim_cons (c : char) (seg : str) :
  no_delim (c :: seg) ->
  c <> LPAREN /\ c <> RPAREN /\ c <> COMMA /\ no_delim seg.
Proof.
  unfold no_delim, is_delim. simpl. intros H.
  apply andb_true_iff in H as [Hc Hs].
  apply negb_true_iff, orb_false_iff in Hc as [Hc H3].
  apply orb_false_iff in Hc as [H1 H2].
  apply N.eqb_neq in H1, H2, H3. auto.
Qed.

Lemma scan_text rec (seg : str) : forall st,
  no_delim seg -> scan rec seg st = Ok (append_text st seg).
Proof.
  induction seg as [|c seg IH]; intros st H.
  - unfold append_text. rewrite app_nil_r. now destruct st.
  - apply no_delim_cons in H as (H1 & H2 & H3 & Hs).
    simpl. rewrite step_text by auto. simpl.
    rewrite IH by exact Hs. unfold append_text. simpl.
    now rewrite <- app_assoc.
Qed.

Lemma scan_token rec (seg : str) (d : char) (rest : str) st :
  no_delim seg ->
  scan rec (seg ++ d :: rest) st
  = (st' <- step rec (append_text st seg) d ;; scan rec rest st').
Proof.
  intros H. rewrite scan_app, scan_text by exact H. reflexivity.
Qed.

Lemma step_depth rec st c st' :
  step rec st c = Ok st' ->
  depth st' = (if (c =? LPAREN)%N then depth st + 1
               else if (c =? RPAREN)%N then depth st - 1
               else depth st)%Z.
Proof.
  unfold step.
  destruct (c =? LPAREN)%N.
  { destruct ((depth st =? 0)%Z && truthy (trim (buffer st)));
      intros [= <-]; reflexivity. }
  destruct (c =? RPAREN)%N.
  { destruct (depth st - 1 =? 0)%Z eqn:Hz; [|intros [= <-]; reflexivity].
    apply Z.eqb_eq in Hz. rewrite Hz.
    intros H. apply bind_Ok in H as (children & _ & H).
    destruct (item_truthy (last_item (items st))).
    - destruct (last_item (items st)).
      + apply bind_Ok in H as (it' & _ & [= <-]). reflexivity.
      + injection H as <-. reflexivity.
    - injection H as <-. reflexivity. }
  destruct ((c =? COMMA)%N && (depth st =? 0)%Z); intros [= <-]; reflexivity.
Qed.

Lemma nesting_text (seg : str) : forall d, no_delim seg -> nesting d seg = Some d.
Proof.
  induction seg as [|c seg IH]; intros d H; [reflexivity|].
  apply no_delim_cons in H as (H1 & H2 & _ & Hs).
  simpl. apply N.eqb_neq in H1, H2. rewrite H1, H2. auto.
Qed.

Lemma nesting_app (a b : str) : forall d,
  nesting d (a ++ b)
  = match nesting d a with Some d' => nesting d' b | None => None end.
Proof.
  induction a as [|c a IH]; intros d; [reflexivity|]. simpl.
  destruct (c =? LPAREN)%N; [apply IH|].
  destruct (c =? RPAREN)%N; [|apply IH].
  destruct (d <=? 0)%Z; [reflexivity|apply IH].
Qed.

Lemma tokens_equiv_app u1 u2 s t :
  tokens_equiv u1 u2 -> ws_equiv s t -> ws_equiv (u1 ++ s) (u2 ++ t).
Proof.
  intros Hu. revert s t.
  induction Hu as [|u1 u2 seg1 seg2 d _ IH H1 H2 Ht Hd]; intros s t Hst;
    [exact Hst|].
  rewrite <- !app_assoc. simpl. apply IH. now apply ws_token.
Qed.

Lemma tokens_equiv_trimEnd u1 u2 :
  tokens_equiv u1 u2 ->
  forall seg1 seg2,
    trimEnd (u1 ++ seg1) = u1 ++ trimEnd seg1
    /\ trimEnd (u2 ++ seg2) = u2 ++ trimEnd seg2.
Proof.
  intros [|? ? s1 s2 d _ _ _ _ Hd] seg1 seg2; [split; reflexivity|].
  apply is_delim_nonws in Hd.
  rewrite <- !app_assoc. simpl.
  rewrite !(app_assoc _ _ (d :: _)), !trimEnd_app_nonws by exact Hd.
  rewrite <- !app_assoc. split; reflexivity.
Qed.

Lemma step_close_top rec st (u seg : str) :
  (depth st - 1)%Z = 0%Z ->
  buffer st = LPAREN :: u ->
  step rec (append_text st seg) RPAREN
  = (children <- rec (u ++ seg) ;; attach_group (items st) children).
Proof.
  intros Hz Hb. unfold step, append_text. cbn [items buffer depth].
  change (RPAREN =? LPAREN)%N with false.
  change (RPAREN =? RPAREN)%N with true. cbv iota.
  rewrite Hz, Hb. change (0 =? 0)%Z with true. cbv iota.
  change ((LPAREN :: u) ++ seg) with (LPAREN :: (u ++ seg)).
  change ((LPAREN :: (u ++ seg)) ++ [RPAREN])
    with (LPAREN :: ((u ++ seg) ++ [RPAREN])).
  rewrite trim_cons_nonws, trimEnd_snoc_nonws by reflexivity.
  rewrite slice_1_m1. cbn [tl]. rewrite removelast_last.
  reflexivity.
Qed.

Lemma attach_group_sim (items0 children : list Item) :
  sim_outcome (attach_group items0 children) (attach_group items0 children).
Proof.
  assert (Hs : forall l, sim_state (mkState l [] 0) (mkState l [] 0)).
  { intros l. split; [reflexivity|]. split; [reflexivity|]. left. auto. }
  unfold attach_group.
  destruct (item_truthy (last_item items0)); [|apply Hs].
  destruct (last_item items0) as [[s|fields]|]; simpl; auto.
Qed.

(** ** Two runs on whitespace-equivalent inputs *)

Section Simulation.

Variables rec1 rec2 : str -> outcome (list Item).

Hypothesis rec_equiv : forall s t,
  ws_equiv s t -> balanced s -> rec1 s <> OutOfFuel -> rec1 s = rec2 t.

Lemma step_sim st1 st2 seg1 seg2 d :
  sim_state st1 st2 ->
  no_delim seg1 -> no_delim seg2 -> trim seg1 = trim seg2 ->
  is_delim d = true ->
  (d = RPAREN -> (depth st1 > 0)%Z) ->
  step rec1 (append_text st1 seg1) d <> OutOfFuel ->
  sim_outcome (step rec1 (append_text st1 seg1) d)
              (step rec2 (append_text st2 seg2) d).
Proof.
  intros (Hi & Hd & Hb) N1 N2 Ht Hdel Hclose Hfuel.
  destruct (is_delim_cases _ Hdel) as [-> | [-> | ->]].
  - (* an opening parenthesis *)
    rewrite !step_open. unfold append_text. cbn [items buffer depth].
    rewrite <- Hd, <- Hi.
    destruct Hb as [(H0 & B1 & B2) | (Hpos & u1 & u2 & B1 & B2 & Hu & Hn)].
    + rewrite B1, B2, H0. cbn [app]. rewrite <- Ht.
      change (0 =? 0)%Z with true. cbn [andb].
      destruct (truthy (trim seg1)) eqn:T; cbn [sim_outcome].
      * split; [reflexivity|]. split; [reflexivity|]. right.
        split; [simpl; lia|]. exists [], [].
        repeat split; constructor.
      * destruct (trim seg1); [|discriminate]. cbn [app].
        split; [reflexivity|]. split; [reflexivity|]. right.
        split; [simpl; lia|]. exists [], [].
        repeat split; constructor.
    + assert (Hz : (depth st1 =? 0)%Z = false) by (apply Z.eqb_neq; lia).
      rewrite Hz. cbn [andb sim_outcome].
      rewrite B1, B2.
      change ((LPAREN :: u1) ++ seg1) with (LPAREN :: (u1 ++ seg1)).
      change ((LPAREN :: u2) ++ seg2) with (LPAREN :: (u2 ++ seg2)).
      rewrite !trim_cons_nonws by reflexivity.
      destruct (tokens_equiv_trimEnd Hu seg1 seg2) as [-> ->].
      split; [reflexivity|]. split; [reflexivity|]. right.
      cbn [items buffer depth]. split; [lia|].
      exists (u1 ++ trimEnd seg1 ++ [LPAREN]), (u2 ++ trimEnd seg2 ++ [LPAREN]).
      split; [cbn [app]; now rewrite <- app_assoc|].
      split; [cbn [app]; now rewrite <- app_assoc|].
      split.
      * apply tokens_snoc; auto using no_delim_trimEnd.
        now rewrite !trim_trimEnd.
      * rewrite nesting_app, Hn, nesting_app.
        rewrite nesting_text by now apply no_delim_trimEnd.
        simpl. f_equal. lia.
  - (* a closing parenthesis *)
    specialize (Hclose eq_refl).
    destruct Hb as [(H0 & _) | (Hpos & u1 & u2 & B1 & B2 & Hu & Hn)]; [lia|].
    destruct (Z.eq_dec (depth st1 - 1) 0) as [Hz|Hnz].
    + rewrite (step_close_top rec1 st1 seg1 Hz B1) in *.
      rewrite (@step_close_top rec2 st2 u2 seg2) by (exact B2 || lia).
      assert (Hne : rec1 (u1 ++ seg1) <> OutOfFuel).
      { intros E. apply Hfuel. now rewrite E. }
      rewrite (@rec_equiv (u1 ++ seg1) (u2 ++ seg2)); [| | |exact Hne].
      * rewrite <- Hi.
        destruct (rec2 (u2 ++ seg2)) as [children|e|] eqn:E; simpl.
        -- apply attach_group_sim.
        -- reflexivity.
        -- apply Hne. rewrite (@rec_equiv (u1 ++ seg1) (u2 ++ seg2)); auto.
           ++ apply tokens_equiv_app; [exact Hu|now apply ws_last].
           ++ unfold balanced. rewrite nesting_app, Hn, nesting_text by exact N1.
              f_equal. lia.
      * apply tokens_equiv_app; [exact Hu|now apply ws_last].
      * unfold balanced. rewrite nesting_app, Hn, nesting_text by exact N1.
        f_equal. lia.
    + rewrite !step_close_inner
        by (unfold append_text; cbn [depth]; (exact Hnz || lia)).
      unfold append_text. cbn [items buffer depth sim_outcome].
      split; [exact Hi|]. split; [cbn [depth]; lia|]. right.
      cbn [items buffer depth]. split; [lia|].
      exists (u1 ++ seg1 ++ [RPAREN]), (u2 ++ seg2 ++ [RPAREN]).
      rewrite B1, B2.
      split; [cbn [app]; now rewrite <- app_assoc|].
      split; [cbn [app]; now rewrite <- app_assoc|].
      split; [now apply tokens_snoc|].
      rewrite nesting_app, Hn, nesting_app, nesting_text by exact N1.
      simpl. assert (Hle : (depth st1 - 1 <=? 0)%Z = false)
        by (apply Z.leb_gt; lia).
      now rewrite Hle.
  - (* a comma *)
    destruct Hb as [(H0 & B1 & B2) | (Hpos & u1 & u2 & B1 & B2 & Hu & Hn)].
    + rewrite !step_comma_top
        by (unfold append_text; cbn [depth]; (exact H0 || lia)).
      unfold append_text. cbn [items buffer depth sim_outcome].
      rewrite B1, B2. cbn [app]. rewrite <- Ht, <- Hi.
      split; [reflexivity|]. split; [reflexivity|]. left. auto.
    + rewrite !step_text
        by (try discriminate; right; unfold append_text; cbn [depth]; lia).
      unfold append_text. cbn [items buffer depth sim_outcome].
      split; [exact Hi|]. split; [exact Hd|]. right.
      cbn [items buffer depth]. split; [exact Hpos|].
      exists (u1 ++ seg1 ++ [COMMA]), (u2 ++ seg2 ++ [COMMA]).
      rewrite B1, B2.
      split; [cbn [app]; now rewrite <- app_assoc|].
      split; [cbn [app]; now rewrite <- app_assoc|].
      split; [now apply tokens_snoc|].
      rewrite nesting_app, Hn, nesting_app, nesting_text by exact N1.
      reflexivity.
Qed.

End Simulation.

Section ScanSimulation.

Variables rec1 rec2 : str -> outcome (list Item).

Hypothesis rec_equiv : forall s t,
  ws_equiv s t -> balanced s -> rec1 s <> OutOfFuel -> rec1 s = rec2 t.

Lemma scan_sim s t :
  ws_equiv s t ->
  forall st1 st2,
    sim_state st1 st2 ->
    nesting (depth st1) s = Some 0%Z ->
    scan rec1 s st1 <> OutOfFuel ->
    (st <- scan rec1 s st1 ;; Ok (finish st))
    = (st <- scan rec2 t st2 ;; Ok (finish st)).
Proof.
  induction 1 as [seg1 seg2 N1 N2 Ht|seg1 seg2 d s t N1 N2 Ht Hdel _ IH];
    intros st1 st2 Hsim Hn Hfuel.
  - rewrite !scan_text by assumption. simpl.
    rewrite nesting_text in Hn by exact N1. injection Hn as Hn.
    destruct Hsim as (Hi & Hd & [(_ & B1 & B2) | (Hpos & _)]); [|lia].
    unfold finish, append_text. cbn [items buffer].
    rewrite B1, B2. cbn [app]. now rewrite <- Ht, Hi.
  - rewrite !scan_token in * by assumption.
    rewrite nesting_app, nesting_text in Hn by exact N1.
    assert (Hclose : d = RPAREN -> (depth st1 > 0)%Z).
    { intros ->. simpl in Hn.
      destruct (depth st1 <=? 0)%Z eqn:E; [discriminate|].
      apply Z.leb_gt in E. lia. }
    assert (Hstep : step rec1 (append_text st1 seg1) d <> OutOfFuel).
    { intros E. apply Hfuel. now rewrite E. }
    pose proof (@step_sim rec1 rec2 rec_equiv st1 st2 seg1 seg2 d
                  Hsim N1 N2 Ht Hdel Hclose Hstep) as Hout.
    destruct (step rec1 (append_text st1 seg1) d) as [a|e1|] eqn:E1;
      destruct (step rec2 (append_text st2 seg2) d) as [b|e2|] eqn:E2;
      simpl in Hout; try contradiction.
    + simpl. simpl in Hfuel. apply IH; [exact Hout| |exact Hfuel].
      rewrite (@step_depth _ _ _ _ E1). unfold append_text. cbn [depth].
      simpl in Hn.
      destruct (d =? LPAREN)%N; [exact Hn|].
      destruct (d =? RPAREN)%N; [|exact Hn].
      destruct (depth st1 <=? 0)%Z; [discriminate|exact Hn].
    + simpl. now subst.
Qed.

End ScanSimulation.

Lemma sim_state_init : sim_state init_state init_state.
Proof. split; [reflexivity|]. split; [reflexivity|]. left. auto. Qed.

Lemma parse_fuel_whitespace fuel : forall s t,
  ws_equiv s t -> balanced s ->
  parse_fuel fuel s <> OutOfFuel ->
  parse_fuel fuel s = parseInput t.
Proof.
  induction fuel as [|fuel IH]; intros s t Hst Hbal Hfuel;
    [now contradiction Hfuel|].
  rewrite (parseInput_unfold t). simpl in *.
  apply (@scan_sim _ _ IH s t Hst _ _ sim_state_init Hbal).
  intros E. apply Hfuel. now rewrite E.
Qed.

Lemma ws_equiv_refl_from (s : str) : forall seg,
  no_delim seg -> ws_equiv (seg ++ s) (seg ++ s).
Proof.
  induction s as [|c s IH]; intros seg Hseg.
  - rewrite app_nil_r. now apply ws_last.
  - destruct (is_delim c) eqn:D.
    + apply ws_token; auto. apply (IH []). reflexivity.
    + replace (seg ++ c :: s) with ((seg ++ [c]) ++ s)
        by now rewrite <- app_assoc.
      apply IH. apply no_delim_app. split; [exact Hseg|].
      unfold no_delim. simpl. now rewrite D.
Qed.

(** Every string is equivalent to itself, and to itself with whitespace
    put around a name that stands before a delimiter or at the end. *)
Lemma ws_equiv_refl (s : str) : ws_equiv s s.
Proof. apply (@ws_equiv_refl_from s []). reflexivity. Qed.

Lemma ws_equiv_pad_token (w1 w2 seg : str) (d : char) (s : str) :
  all_whitespace w1 -> all_whitespace w2 -> no_delim seg ->
  is_delim d = true ->
  ws_equiv (seg ++ d :: s) ((w1 ++ seg ++ w2) ++ d :: s).
Proof.
  intros H1 H2 Hseg Hd. apply ws_token; auto.
  - apply no_delim_app. split; [now apply whitespace_no_delim|].
    apply no_delim_app. split; [exact Hseg|now apply whitespace_no_delim].
  - now rewrite trim_padded.
  - apply ws_equiv_refl.
Qed.

Lemma ws_equiv_pad_last (w1 w2 seg : str) :
  all_whitespace w1 -> all_whitespace w2 -> no_delim seg ->
  ws_equiv seg (w1 ++ seg ++ w2).
Proof.
  intros H1 H2 Hseg. apply ws_last; auto.
  - apply no_delim_app. split; [now apply whitespace_no_delim|].
    apply no_delim_app. split; [exact Hseg|now apply whitespace_no_delim].
  - now rewrite trim_padded.
Qed.

(** C5, as the code has it: on input whose parentheses match, whitespace
    around names, commas and parentheses does not change what [parseInput]
    returns. *)
Theorem parseInput_whitespace_insensitive (s t : str) :
  ws_equiv s t -> balanced s -> parseInput s = parseInput t.
Proof.
  intros Hst Hbal. apply parse_fuel_whitespace; [exact Hst|exact Hbal|].
  apply parse_fuel_total. lia.
Qed.

Lemma ws_equiv_example :
  ws_equiv (js "a,b(c,d),e") (js "  a , b ( c,  d ) ,e ").
Proof.
  apply (@ws_token (js "a") (js "  a ") COMMA); try reflexivity.
  apply (@ws_token (js "b") (js " b ") LPAREN); try reflexivity.
  apply (@ws_token (js "c") (js " c") COMMA); try reflexivity.
  apply (@ws_token (js "d") (js "  d ") RPAREN); try reflexivity.
  apply (@ws_token (js "") (js " ") COMMA); try reflexivity.
  apply (@ws_last (js "e") (js "e ")); reflexivity.
Qed.

Lemma parseInput_whitespace_insensitive_witness :
  parseInput (js "a,b(c,d),e") = parseInput (js "  a , b ( c,  d ) ,e ").
Proof.
  apply parseInput_whitespace_insensitive.
  - exact ws_equiv_example.
  - reflexivity.
Defined.

(** C5 as stated fails on input whose parentheses do not match: a space
    after the parenthesis of "(a" stays in the name of the final leaf. *)
Lemma whitespace_kept_in_unclosed_group :
  ws_equiv (js "(a") (js "( a")
  /\ parseInput (js "(a") = Ok [Leaf (js "(a")]
  /\ parseInput (js "( a") = Ok [Leaf (js "( a")]
  /\ ~ (forall s t, ws_equiv s t -> parseInput s = parseInput t).
Proof.
  assert (H : ws_equiv (js "(a") (js "( a")).
  { apply (@ws_token (js "") (js "") LPAREN); try reflexivity.
    apply (@ws_last (js "a") (js " a")); reflexivity. }
  split; [exact H|]. split; [reflexivity|]. split; [reflexivity|].
  intros Hall. specialize (Hall _ _ H). discriminate Hall.
Qed.

(** * Further properties *)

(** ** The sorter orders every depth and keeps every item *)

Lemma deep_sorted_Forall cmp (l : list Item) :
  fold_right (fun c acc => deep_sorted_item cmp c /\ acc) True l
  <-> Forall (deep_sorted_item cmp) l.
Proof.
  induction l as [|c l IH]; simpl.
  - split; auto.
  - rewrite IH. split.
    + intros [H1 H2]. now constructor.
    + intros H. inversion H; subst. auto.
Qed.

Lemma sort_fuel_deep_sorted cmp fuel :
  consistent_comparator cmp ->
  forall items s, sort_fuel cmp fuel items = Ok s -> deep_sorted cmp s.
Proof.
  intros Hc. induction fuel as [|fuel IH]; intros items s; simpl;
    [discriminate|].
  intros H. apply bind_Ok in H as (sorted & Hsorted & Hloop).
  apply (array_sort_sorted Hc) in Hsorted.
  apply for_of_Forall2 in Hloop.
  split.
  - eapply name_sorted_Forall2; [|exact Hsorted].
    eapply Forall2_impl; [|exact Hloop].
    intros a b Hab. now apply sort_children_key in Hab.
  - apply deep_sorted_Forall. clear Hsorted.
    induction Hloop as [|a b l l' Hab _ IHl]; constructor; [|assumption].
    destruct a as [n|[|[k cs] rest]]; simpl in Hab.
    + injection Hab as <-. exact I.
    + discriminate.
    + apply bind_Ok in Hab as (c' & Hc' & [= <-]).
      apply IH in Hc'. exact Hc'.
Qed.

(** X1: after [sortItems] returns, the sequence is in comparator order and
    so is the children sequence of every node, at every depth. *)
Theorem sortItems_sorts_every_depth (localeCompare : str -> str -> Z)
    (items s : list Item) :
  consistent_comparator localeCompare ->
  sortItems localeCompare items = Ok s ->
  deep_sorted localeCompare s.
Proof. intros Hc H. exact (@sort_fuel_deep_sorted _ _ Hc _ _ H). Qed.

Lemma sortItems_sorts_every_depth_witness :
  deep_sorted codeUnitCompare
    [Leaf (js "a"); Node (js "b") [Leaf (js "a"); Leaf (js "z")]].
Proof.
  apply (@sortItems_sorts_every_depth codeUnitCompare
           [Node (js "b") [Leaf (js "z"); Leaf (js "a")]; Leaf (js "a")]).
  - exact codeUnitCompare_consistent.
  - reflexivity.
Defined.

Lemma sort_insert_perm (cmp : Item -> Item -> outcome Z) x l : forall s,
  sort_insert cmp x l = Ok s -> Permutation (x :: l) s.
Proof.
  induction l as [|y l IH]; simpl; intros s H.
  - injection H as <-. apply Permutation_refl.
  - apply bind_Ok in H as (v & _ & H).
    destruct (v <=? 0)%Z.
    + injection H as <-. apply Permutation_refl.
    + apply bind_Ok in H as (r & Hr & [= <-]).
      rewrite perm_swap. apply perm_skip. now apply IH.
Qed.

Lemma array_sort_perm (cmp : Item -> Item -> outcome Z) l : forall s,
  array_sort cmp l = Ok s -> Permutation l s.
Proof.
  induction l as [|x l IH]; simpl; intros s H.
  - injection H as <-. constructor.
  - apply bind_Ok in H as (s0 & Hs0 & H).
    apply sort_insert_perm in H. rewrite <- H. apply perm_skip. now apply IH.
Qed.

Lemma sort_fuel_outline cmp fuel : forall items s,
  sort_fuel cmp fuel items = Ok s ->
  forall depth, Permutation (outline depth items) (outline depth s).
Proof.
  induction fuel as [|fuel IH]; intros items s; simpl; [discriminate|].
  intros H depth. apply bind_Ok in H as (sorted & Hsorted & Hloop).
  apply array_sort_perm in Hsorted.
  unfold outline. rewrite (Permutation_flat_map (outline_item depth) Hsorted).
  apply for_of_Forall2 in Hloop. clear Hsorted.
  induction Hloop as [|a b l l' Hab _ IHl]; [constructor|].
  simpl. apply Permutation_app; [|exact IHl].
  destruct a as [n|[|[k cs] rest]]; simpl in Hab.
  - injection Hab as <-. apply Permutation_refl.
  - discriminate.
  - apply bind_Ok in Hab as (c' & Hc' & [= <-]).
    simpl. apply perm_skip. exact (IH _ _ Hc' (S depth)).
Qed.

(** ** The printer only appends *)




Lemma line_of_depth (a b : nat) (n1 n2 : str) :
  repeat SPACE a ++ js "- " ++ n1 = repeat SPACE b ++ js "- " ++ n2 ->
  a = b.
Proof.
  revert b. induction a as [|a IH]; intros [|b]; simpl; try discriminate;
    auto.
  intros [= H]. f_equal. now apply IH.
Qed.

(** X3: a printed line determines the item it was printed for: two calls of
    [console.log] in [printItems] write the same line only at the same depth
    and for the same name. *)
Theorem printed_line_determines_item (d1 d2 : nat) (n1 n2 : str)
    (out : console) :
  console_log_item d1 n1 out = console_log_item d2 n2 out ->
  d1 = d2 /\ n1 = n2.
Proof.
  rewrite !console_log_line. intros H.
  apply app_inv_head in H. injection H as H. unfold line_of in H.
  cbn [fst snd] in H.
  pose proof (line_of_depth _ _ _ _ H) as E.
  assert (d1 = d2) by lia. subst d2. split; [reflexivity|].
  apply app_inv_head in H. now injection H.
Qed.

Lemma printed_line_determines_item_witness :
  2 = 2 /\ js "c1" = js "c1".
Proof.
  apply (@printed_line_determines_item 2 2 (js "c1") (js "c1") []).
  reflexivity.
Defined.

(** X4: sorting changes the order of the printed lines and nothing else.
    For single-keyed items and any comparator, [printItems] after
    [sortItems] writes a permutation of the lines it writes before, each
    item still at its depth, and both calls return. *)
Theorem sort_permutes_printed_lines (localeCompare : str -> str -> Z)
    (items s : list Item) (indent : nat) (out : console) :
  forallb single_keyed items = true ->
  sortItems localeCompare items = Ok s ->
  exists lines lines',
    printItems items indent out = (out ++ lines, Ok tt)
    /\ printItems s indent out = (out ++ lines', Ok tt)
    /\ Permutation lines lines'
    /\ length lines' = count_items items.
Proof.
  intros Hsk Hs.
  destruct (@sort_fuel_single_keyed localeCompare (S (heights items)) items)
    as (s' & Hs' & Hsk'); [lia|exact Hsk|].
  unfold sortItems in Hs. rewrite Hs in Hs'. injection Hs' as <-.
  pose proof (sort_fuel_outline _ _ _ Hs indent) as Hperm.
  exists (map line_of (outline indent items)), (map line_of (outline indent s)).
  split; [now apply printItems_outline|].
  split; [now apply printItems_outline|].
  split; [now apply Permutation_map|].
  rewrite <- (Permutation_length (Permutation_map line_of Hperm)).
  rewrite length_map. now apply outline_count.
Qed.

Lemma sort_permutes_printed_lines_witness :
  exists lines lines',
    printItems shipped_items 0 [] = ([] ++ lines, Ok tt)
    /\ printItems shipped_sorted 0 [] = ([] ++ lines', Ok tt)
    /\ Permutation lines lines'
    /\ length lines' = count_items shipped_items.
Proof.
  apply (@sort_permutes_printed_lines codeUnitCompare); reflexivity.
Defined.

(** ** Input without parentheses *)

Lemma scan_flat rec (s : str) : forall st,
  no_paren s -> depth st = 0%Z ->
  exists st',
    scan rec s st = Ok st'
    /\ finish st'
       = items st ++ map Leaf (filter truthy (map trim (entries_from (buffer st) s))).
Proof.
  unfold no_paren.
  induction s as [|c s IH]; intros st Hs Hd.
  - exists st. split; [reflexivity|]. unfold finish. simpl.
    destruct (truthy (trim (buffer st))); simpl; [reflexivity|].
    now rewrite app_nil_r.
  - simpl in Hs. apply andb_true_iff in Hs as [Hc Hs].
    apply andb_true_iff in Hc as [H1 H2].
    apply negb_true_iff, N.eqb_neq in H1, H2.
    simpl. destruct (N.eqb_spec c COMMA) as [->|Hc].
    + rewrite step_comma_top by exact Hd. simpl.
      destruct (IH (mkState (if truthy (trim (buffer st))
                             then items st ++ [Leaf (trim (buffer st))]
                             else items st) [] 0) Hs eq_refl)
        as (st' & Hscan & Hfin).
      exists st'. split; [exact Hscan|]. rewrite Hfin. simpl.
      destruct (truthy (trim (buffer st))); simpl; [|reflexivity].
      now rewrite <- app_assoc.
    + rewrite step_text by auto. simpl.
      destruct (IH (mkState (items st) (buffer st ++ [c]) (depth st)) Hs Hd)
        as (st' & Hscan & Hfin).
      exists st'. split; [exact Hscan|exact Hfin].
Qed.

(** X5: on input without parentheses [parseInput] returns the leaves of the
    comma-separated entries, each trimmed, the empty ones dropped, in
    order. *)
Theorem parseInput_flat_list (s : str) :
  no_paren s ->
  parseInput s = Ok (map Leaf (filter truthy (map trim (entries s)))).
Proof.
  intros Hs. rewrite parseInput_unfold.
  destruct (@scan_flat parseInput s init_state Hs eq_refl) as (st' & -> & Hfin).
  simpl. now rewrite Hfin.
Qed.

Lemma parseInput_flat_list_witness :
  parseInput (js " a,, b c ,") = Ok [Leaf (js "a"); Leaf (js "b c")].
Proof.
  apply (@parseInput_flat_list (js " a,, b c ,")). reflexivity.
Defined.

(** ** Names are never empty and never padded *)

Lemma trimStart_idempotent (s : str) : trimStart (trimStart s) = trimStart s.
Proof.
  destruct (trimStart_split s) as [[_ ->]|(w & c & r & _ & _ & Hc & ->)];
    [reflexivity|].
  simpl. now rewrite Hc.
Qed.

Lemma trim_idempotent (s : str) : trim (trim s) = trim s.
Proof.
  unfold trim.
  now rewrite trimStart_trimEnd, trimStart_idempotent, trimEnd_idempotent.
Qed.

Lemma str_eqb_eq (a b : str) : str_eqb a b = true <-> a = b.
Proof.
  unfold str_eqb. destruct (list_eq_dec N.eq_dec a b); split; congruence.
Qed.

Lemma clean_name_trim (b : str) :
  truthy (trim b) = true -> clean_name (trim b) = true.
Proof.
  intros T. unfold clean_name. rewrite T. simpl.
  apply str_eqb_eq, trim_idempotent.
Qed.

Lemma clean_set_prop fields key children :
  clean_names (IRecord fields) = true ->
  clean_name key = true ->
  forallb clean_names children = true ->
  clean_names (IRecord (set_prop fields key children)) = true.
Proof.
  simpl. intros Hf Hk Hc.
  induction fields as [|[k v] rest IH]; simpl in *.
  - now rewrite Hk, Hc.
  - apply andb_true_iff in Hf as [Hkv Hrest].
    apply andb_true_iff in Hkv as [Hk0 Hv].
    destruct (str_eqb k key); simpl.
    + now rewrite Hk0, Hc, Hrest.
    + now rewrite Hk0, Hv, IH.
Qed.

Lemma step_clean rec st c st' :
  (forall s r, rec s = Ok r -> forallb clean_names r = true) ->
  forallb clean_names (items st) = true ->
  step rec st c = Ok st' ->
  forallb clean_names (items st') = true.
Proof.
  intros Hrec Hst. unfold step.
  destruct (c =? LPAREN)%N.
  { destruct (depth st =? 0)%Z; simpl.
    - destruct (truthy (trim (buffer st))) eqn:T; intros [= <-]; simpl; auto.
      rewrite forallb_app, Hst. simpl.
      now rewrite clean_name_trim.
    - intros [= <-]; assumption. }
  destruct (c =? RPAREN)%N.
  { destruct (depth st - 1 =? 0)%Z; [|intros [= <-]; assumption].
    intros H. apply bind_Ok in H as (children & Hc & H).
    apply Hrec in Hc.
    destruct (item_truthy (last_item (items st))) eqn:T;
      [|injection H as <-; assumption].
    destruct (last_item (items st)) as [it|] eqn:L;
      [|injection H as <-; assumption].
    apply bind_Ok in H as (it' & Hit & H). injection H as <-. simpl.
    apply last_item_Some in L. rewrite L in Hst.
    rewrite forallb_app in *. apply andb_true_iff in Hst as [Hinit Hlast].
    rewrite Hinit. simpl in *. rewrite andb_true_r in *.
    destruct it as [s|fields]; [discriminate|].
    simpl in Hit. injection Hit as <-.
    apply clean_set_prop; auto.
    destruct fields as [|[k v] rest]; simpl; [reflexivity|].
    simpl in Hlast. apply andb_true_iff in Hlast as [Hkv _].
    now apply andb_true_iff in Hkv as [Hk _]. }
  destruct ((c =? COMMA)%N && (depth st =? 0)%Z).
  { destruct (truthy (trim (buffer st))) eqn:T; intros [= <-]; simpl; auto.
    rewrite forallb_app, Hst. simpl. now rewrite clean_name_trim. }
  intros [= <-]; assumption.
Qed.

Lemma scan_clean rec input : forall st st',
  (forall s r, rec s = Ok r -> forallb clean_names r = true) ->
  forallb clean_names (items st) = true ->
  scan rec input st = Ok st' ->
  forallb clean_names (items st') = true.
Proof.
  induction input as [|c rest IH]; intros st st' Hrec Hst; simpl.
  - intros [= <-]; assumption.
  - intros H. apply bind_Ok in H as (st1 & Hstep & H).
    eapply IH; [exact Hrec| |exact H].
    eapply step_clean; eassumption.
Qed.

Lemma parse_fuel_clean fuel : forall input r,
  parse_fuel fuel input = Ok r -> forallb clean_names r = true.
Proof.
  induction fuel as [|fuel IH]; intros input r; simpl; [discriminate|].
  intros H. apply bind_Ok in H as (st & Hscan & [= <-]).
  pose proof (@scan_clean (parse_fuel fuel) input init_state st IH eq_refl Hscan)
    as Hst.
  unfold finish. destruct (truthy (trim (buffer st))) eqn:T; [|exact Hst].
  rewrite forallb_app, Hst. simpl. now rewrite clean_name_trim.
Qed.

(** X6: every name in a result of [parseInput], of a leaf or of a node at
    any depth, is non-empty and has no whitespace at either end, whatever
    the input. *)
Theorem parseInput_names_clean (input : str) (items0 : list Item) :
  parseInput input = Ok items0 -> forallb clean_names items0 = true.
Proof. apply parse_fuel_clean. Qed.

Lemma parseInput_names_clean_witness :
  forallb clean_names [Node (js "a )(") [Leaf (js "b")]; Leaf (js "( c")] = true.
Proof.
  apply (@parseInput_names_clean (js " a )((b) ( c ")). reflexivity.
Defined.

(** ** A group is parsed on its own *)

Lemma parseInput_ws_equiv (s t : str) :
  ws_equiv s t -> balanced s -> parseInput s = parseInput t.
Proof.
  intros Hst Hbal. apply parse_fuel_whitespace; [exact Hst|exact Hbal|].
  apply parse_fuel_total. lia.
Qed.

Lemma scan_inner rec (u : str) : forall st d',
  (depth st >= 1)%Z ->
  nesting (depth st - 1) u = Some d' ->
  scan rec u st
  = Ok (mkState (items st) (inner_text (buffer st) u) (d' + 1)).
Proof.
  induction u as [|c u IH]; intros st d' Hd Hn.
  - simpl in *. injection Hn as <-.
    replace (depth st - 1 + 1)%Z with (depth st) by lia. now destruct st.
  - simpl in Hn. simpl scan. simpl inner_text.
    destruct (N.eqb_spec c LPAREN) as [->|H1].
    + rewrite step_open.
      replace (depth st =? 0)%Z with false by (symmetry; apply Z.eqb_neq; lia).
      simpl. rewrite IH with (d' := d'); [reflexivity|simpl; lia|].
      simpl. replace (depth st + 1 - 1)%Z with (depth st - 1 + 1)%Z by lia.
      exact Hn.
    + destruct (N.eqb_spec c RPAREN) as [->|H2].
      * destruct (depth st - 1 <=? 0)%Z eqn:E; [discriminate|].
        apply Z.leb_gt in E.
        rewrite step_close_inner by lia. simpl.
        rewrite IH with (d' := d'); [reflexivity|simpl; lia|exact Hn].
      * rewrite step_text by (auto; right; lia). simpl.
        rewrite IH with (d' := d'); [reflexivity|exact Hd|exact Hn].
Qed.

Lemma trim_stable_nil : trim_stable [].
Proof. intros x. reflexivity. Qed.

Lemma trim_stable_snoc (v : str) (d : char) :
  is_whitespace d = false -> trim_stable (v ++ [d]).
Proof.
  intros Hd x. rewrite <- !app_assoc. simpl.
  now apply trimEnd_app_nonws.
Qed.

Lemma inner_text_equiv (u : str) : forall v0 seg,
  no_delim seg -> trim_stable v0 ->
  exists r,
    inner_text (LPAREN :: v0 ++ seg) u = LPAREN :: v0 ++ r
    /\ ws_equiv (seg ++ u) r.
Proof.
  induction u as [|c u IH]; intros v0 seg Hseg Hv0.
  - exists seg. split; [reflexivity|]. rewrite app_nil_r. now apply ws_last.
  - simpl inner_text. destruct (N.eqb_spec c LPAREN) as [->|H1].
    + rewrite trim_cons_nonws by reflexivity. rewrite Hv0.
      destruct (IH (v0 ++ trimEnd seg ++ [LPAREN]) []) as (r & Hr & Heq).
      { reflexivity. }
      { rewrite app_assoc. now apply trim_stable_snoc. }
      exists (trimEnd seg ++ LPAREN :: r). split.
      * rewrite app_nil_r in Hr. simpl in *. rewrite <- !app_assoc in *.
        simpl in *. exact Hr.
      * apply ws_token; auto.
        -- now apply no_delim_trimEnd.
        -- now rewrite trim_trimEnd.
    + destruct (is_delim c) eqn:D.
      * destruct (IH (v0 ++ seg ++ [c]) []) as (r & Hr & Heq).
        { reflexivity. }
        { rewrite app_assoc. apply trim_stable_snoc.
          now apply is_delim_nonws. }
        exists (seg ++ c :: r). split.
        -- rewrite app_nil_r in Hr. simpl in *. rewrite <- !app_assoc in *.
           simpl in *. exact Hr.
        -- apply ws_token; auto.
      * destruct (IH v0 (seg ++ [c])) as (r & Hr & Heq).
        { apply no_delim_app. split; [exact Hseg|].
          unfold no_delim. simpl. now rewrite D. }
        { exact Hv0. }
        exists r. split.
        -- simpl. rewrite <- app_assoc. exact Hr.
        -- rewrite <- app_assoc in Heq. exact Heq.
Qed.

Lemma attach_group_named (items0 : list Item) (name : str)
    (children : list Item) :
  attach_group (items0 ++ [Node name []]) children
  = Ok (mkState (items0 ++ [Node name children]) [] 0).
Proof.
  unfold attach_group. rewrite last_item_snoc. simpl.
  rewrite str_eqb_refl, removelast_last. reflexivity.
Qed.

Lemma scan_group (st : scan_state) (u rest : str) :
  depth st = 0%Z -> balanced u ->
  scan parseInput (LPAREN :: u ++ RPAREN :: rest) st
  = (children <- parseInput u ;;
     st' <- attach_group (open_group st) children ;;
     scan parseInput rest st').
Proof.
  intros Hd Hbal.
  destruct (@inner_text_equiv u [] []) as (r & Hr & Heq);
    [reflexivity|apply trim_stable_nil|].
  simpl in Hr, Heq.
  assert (Hopen : step parseInput st LPAREN
                  = Ok (mkState (open_group st) [LPAREN] 1)).
  { rewrite step_open, Hd. unfold open_group. simpl.
    destruct (truthy (trim (buffer st))) eqn:T; [reflexivity|].
    destruct (trim (buffer st)); [reflexivity|discriminate]. }
  simpl scan. rewrite Hopen. simpl bind.
  rewrite scan_app.
  rewrite (@scan_inner parseInput u _ 0%Z) by (simpl; (lia || exact Hbal)).
  simpl items. simpl buffer. rewrite Hr. simpl bind. simpl scan.
  change (mkState (open_group st) (LPAREN :: r) (0 + 1))
    with (mkState (open_group st) (LPAREN :: r) 1).
  rewrite <- (app_nil_r (LPAREN :: r)).
  change (mkState (open_group st) ((LPAREN :: r) ++ []) 1)
    with (append_text (mkState (open_group st) (LPAREN :: r) 1) []).
  rewrite (@step_close_top parseInput _ r []) by reflexivity.
  rewrite app_nil_r, <- (parseInput_ws_equiv Heq Hbal).
  simpl items.
  destruct (parseInput u); reflexivity.
Qed.

Lemma scan_named_group (st : scan_state) (u rest : str) :
  depth st = 0%Z -> balanced u -> truthy (trim (buffer st)) = true ->
  scan parseInput (LPAREN :: u ++ RPAREN :: rest) st
  = (children <- parseInput u ;;
     scan parseInput rest
       (mkState (items st ++ [Node (trim (buffer st)) children]) [] 0)).
Proof.
  intros Hd Hbal T. rewrite scan_group by assumption.
  unfold open_group. rewrite T.
  destruct (parseInput u); simpl; try reflexivity.
  now rewrite attach_group_named.
Qed.

(** X7: a balanced group read at depth 0 is parsed on its own.  The loop
    goes on after the closing parenthesis as if the group's contents had
    been handed to [parseInput] separately: a failure of that call ends the
    loop, its result is given to the last item (or replaces an empty
    sequence).  With a name before the parenthesis, the loop goes on with
    the node of that name and those children appended. *)
Theorem group_parsed_on_its_own (st : scan_state) (u rest : str) :
  depth st = 0%Z -> balanced u ->
  scan parseInput (LPAREN :: u ++ RPAREN :: rest) st
  = (children <- parseInput u ;;
     st' <- attach_group (open_group st) children ;;
     scan parseInput rest st')
  /\ (truthy (trim (buffer st)) = true ->
      scan parseInput (LPAREN :: u ++ RPAREN :: rest) st
      = (children <- parseInput u ;;
         scan parseInput rest
           (mkState (items st ++ [Node (trim (buffer st)) children]) [] 0))).
Proof.
  intros Hd Hbal. split; [now apply scan_group|].
  intros T. now apply scan_named_group.
Qed.

Lemma group_parsed_on_its_own_witness :
  scan parseInput (js "(c, d), e") (mkState [Leaf (js "a")] (js " b") 0)
  = (children <- parseInput (js "c, d") ;;
     scan parseInput (js ", e")
       (mkState ([Leaf (js "a")] ++ [Node (js "b") children]) [] 0)).
Proof.
  apply (proj2 (@group_parsed_on_its_own
                  (mkState [Leaf (js "a")] (js " b") 0) (js "c, d") (js ", e")
                  eq_refl eq_refl)).
  reflexivity.
Defined.

(** ** The notation of a forest parses to the forest *)

Lemma trim_all_whitespace (w : str) : all_whitespace w -> trim w = [].
Proof.
  intros H. unfold trim.
  rewrite <- (app_nil_r w), trimStart_whitespace by exact H. reflexivity.
Qed.

Lemma name_ok_facts (n : str) :
  name_ok n = true -> truthy n = true /\ trim n = n /\ no_delim n.
Proof.
  unfold name_ok, clean_name. intros H.
  apply andb_true_iff in H as [H Hd]. apply andb_true_iff in H as [Ht He].
  apply str_eqb_eq in He. auto.
Qed.

Lemma trim_after_whitespace (w n : str) :
  all_whitespace w -> trim n = n -> trim (w ++ n) = n.
Proof.
  intros Hw Hn. rewrite <- (app_nil_r n) at 1.
  rewrite trim_padded; [exact Hn|exact Hw|reflexivity].
Qed.

Lemma after_item_depth st it : depth st = 0%Z -> depth (after_item st it) = 0%Z.
Proof. destruct it; simpl; auto. Qed.

Lemma after_item_trim st it :
  well_formed it = true -> all_whitespace (buffer st) ->
  (if truthy (trim (buffer (after_item st it)))
   then items (after_item st it) ++ [Leaf (trim (buffer (after_item st it)))]
   else items (after_item st it))
  = items st ++ [it].
Proof.
  intros Hwf Hw. destruct it as [n|fields]; simpl.
  - apply name_ok_facts in Hwf as (Ht & Hn & _).
    rewrite trim_after_whitespace by assumption. now rewrite Ht.
  - reflexivity.
Qed.

Lemma reads_items (l : list Item) :
  Forall (fun it => well_formed it = true -> reads_item it) l ->
  forallb well_formed l = true ->
  (forall st,
     depth st = 0%Z -> all_whitespace (buffer st) ->
     (st' <- scan parseInput (notation l) st ;; Ok (finish st'))
     = Ok (items st ++ l))
  /\ (forall d, (0 <= d)%Z -> nesting d (notation l) = Some d).
Proof.
  induction 1 as [|c r Hc _ IH]; intros Hwf.
  - split; [|reflexivity]. intros st Hd Hw. simpl. unfold finish.
    rewrite trim_all_whitespace by exact Hw. simpl. now rewrite app_nil_r.
  - simpl in Hwf. apply andb_true_iff in Hwf as [Hwc Hwr].
    destruct (Hc Hwc) as [Hscan Hnest].
    destruct (IH Hwr) as [IHscan IHnest]. clear IH Hc.
    destruct r as [|c2 r'].
    + change (notation [c]) with (notation_item c).
      split; [|exact Hnest]. intros st Hd Hw.
      rewrite <- (app_nil_r (notation_item c)), Hscan by assumption.
      simpl. unfold finish. now rewrite after_item_trim.
    + change (notation (c :: c2 :: r'))
        with (notation_item c ++ COMMA :: SPACE :: notation (c2 :: r')).
      split.
      * intros st Hd Hw. rewrite Hscan by assumption.
        cbn [scan].
        rewrite step_comma_top by now apply after_item_depth.
        rewrite after_item_trim by assumption. cbn [bind scan].
        rewrite step_text by (try discriminate; left; discriminate).
        cbn [bind items buffer depth app].
        rewrite IHscan by reflexivity. simpl.
        now rewrite <- app_assoc.
      * intros d Hd. rewrite nesting_app, Hnest by exact Hd.
        simpl. now apply IHnest.
Qed.

Lemma item_reads (it : Item) : well_formed it = true -> reads_item it.
Proof.
  induction it as [n|fields IH] using Item_nested_ind; intros Hwf.
  - apply name_ok_facts in Hwf as (_ & _ & Hn). split.
    + intros st rest _ _. simpl. rewrite scan_app, scan_text by exact Hn.
      reflexivity.
    + intros d _. now apply nesting_text.
  - destruct fields as [|[k cs] [|? ?]]; try discriminate.
    simpl in Hwf. apply andb_true_iff in Hwf as [Hk Hcs].
    inversion IH as [|? ? Hall _]; subst. simpl in Hall.
    destruct (reads_items Hall Hcs) as [Hparse Hnest].
    apply name_ok_facts in Hk as (Ht & Hn & Hnd).
    fold (notation cs) in *.
    assert (Hround : parseInput (notation cs) = Ok cs).
    { rewrite parseInput_unfold. now apply (Hparse init_state). }
    split.
    + intros st rest Hd Hw.
      cbn [notation_item]. fold (notation cs).
      rewrite <- app_assoc. cbn [app]. rewrite <- app_assoc. cbn [app].
      rewrite scan_app, scan_text by exact Hnd. cbn [bind].
      rewrite (@scan_named_group (append_text st k) (notation cs) rest).
      * unfold append_text. cbn [items buffer].
        rewrite trim_after_whitespace by assumption.
        rewrite Hround. reflexivity.
      * exact Hd.
      * now apply Hnest.
      * unfold append_text. cbn [buffer].
        now rewrite trim_after_whitespace.
    + intros d Hd. cbn [notation_item]. fold (notation cs).
      rewrite nesting_app, nesting_text by exact Hnd.
      simpl. rewrite nesting_app, Hnest by lia. simpl.
      replace (d + 1 <=? 0)%Z with false by (symmetry; apply Z.leb_gt; lia).
      f_equal. lia.
Qed.

Lemma notation_parses (l : list Item) :
  forallb well_formed l = true ->
  parseInput (notation l) = Ok l /\ balanced (notation l).
Proof.
  intros Hwf.
  destruct (@reads_items l) as [Hparse Hnest]; [|exact Hwf|].
  { apply Forall_forall. intros it _. apply item_reads. }
  split; [|now apply Hnest].
  rewrite parseInput_unfold. now apply (Hparse init_state).
Qed.

(** X8: round trip.  For every forest of the grammar (leaves and
    single-keyed nodes whose names are non-empty, trimmed and free of commas
    and parentheses), [parseInput] applied to its notation, "a, b(c, d), e",
    returns exactly that forest, and the parentheses of the notation
    match. *)
Theorem parseInput_notation_round_trip (l : list Item) :
  forallb well_formed l = true ->
  parseInput (notation l) = Ok l /\ balanced (notation l).
Proof. apply notation_parses. Qed.

Lemma parseInput_notation_round_trip_witness :
  notation shipped_items
  = js "id, name, email, type(id, name, customFields(c1, c2, c3)), externalId"
  /\ parseInput (notation shipped_items) = Ok shipped_items.
Proof.
  split; [reflexivity|].
  apply (proj1 (@parseInput_notation_round_trip shipped_items eq_refl)).
Defined.

(** X9: the round trip up to whitespace.  Every text that differs from the
    notation of a forest of the grammar only by whitespace around names,
    commas and parentheses parses to that forest; on such input
    [parseInput] does not throw. *)
Theorem parseInput_padded_notation (l : list Item) (t : str) :
  forallb well_formed l = true ->
  ws_equiv (notation l) t ->
  parseInput t = Ok l.
Proof.
  intros Hwf Ht. destruct (notation_parses l Hwf) as [Hparse Hbal].
  rewrite <- (parseInput_ws_equiv Ht Hbal). exact Hparse.
Qed.

Lemma parseInput_padded_notation_witness :
  parseInput (js "  a,b (  c,d )  ,e ")
  = Ok [Leaf (js "a"); Node (js "b") [Leaf (js "c"); Leaf (js "d")];
        Leaf (js "e")].
Proof.
  apply parseInput_padded_notation; [reflexivity|].
  apply (@ws_token (js "a") (js "  a") COMMA); try reflexivity.
  apply (@ws_token (js " b") (js "b ") LPAREN); try reflexivity.
  apply (@ws_token (js "c") (js "  c") COMMA); try reflexivity.
  apply (@ws_token (js " d") (js "d ") RPAREN); try reflexivity.
  apply (@ws_token (js "") (js "  ") COMMA); try reflexivity.
  apply (@ws_last (js " e") (js "e ")); reflexivity.
Defined.

(** ** On balanced input the result is a forest of the grammar *)

Lemma tokens_equiv_left u1 u2 : tokens_equiv u1 u2 -> tokens_equiv u1 u1.
Proof. induction 1; constructor; auto. Qed.

Lemma sim_state_left a b : sim_state a b -> sim_state a a.
Proof.
  intros (_ & _ & [(H0 & B1 & _)|(Hpos & u1 & u2 & B1 & _ & Hu & Hn)]).
  - split; [reflexivity|]. split; [reflexivity|]. left. auto.
  - split; [reflexivity|]. split; [reflexivity|]. right.
    split; [exact Hpos|]. exists u1, u1.
    repeat split; auto. now apply tokens_equiv_left in Hu.
Qed.

Lemma no_delim_trim (s : str) : no_delim s -> no_delim (trim s).
Proof.
  intros H. unfold trim. apply no_delim_trimEnd.
  destruct (trimStart_split s) as [[_ ->]|(w & c & r & E & _ & _ & ->)];
    [reflexivity|].
  rewrite E in H. now apply no_delim_app in H.
Qed.

Lemma name_ok_trim (seg : str) :
  no_delim seg -> truthy (trim seg) = true -> name_ok (trim seg) = true.
Proof.
  intros Hseg T. unfold name_ok. rewrite clean_name_trim by exact T.
  now apply no_delim_trim.
Qed.

Lemma attach_group_well_formed (items0 children : list Item) st' :
  forallb well_formed items0 = true ->
  forallb well_formed children = true ->
  attach_group items0 children = Ok st' ->
  forallb well_formed (items st') = true.
Proof.
  intros Hi Hc. unfold attach_group.
  destruct (item_truthy (last_item items0)) eqn:T;
    [|intros [= <-]; exact Hc].
  destruct (last_item items0) as [it|] eqn:L; [|intros [= <-]; exact Hc].
  intros H. apply bind_Ok in H as (it' & Hit & [= <-]). simpl.
  apply last_item_Some in L. rewrite L in Hi.
  rewrite forallb_app in *. apply andb_true_iff in Hi as [Hinit Hlast].
  rewrite Hinit. simpl in *. rewrite andb_true_r in *.
  destruct it as [s|fields]; [discriminate|].
  simpl in Hit. injection Hit as <-.
  destruct fields as [|[k v] [|? ?]]; try discriminate.
  simpl in *. rewrite str_eqb_refl. simpl.
  apply andb_true_iff in Hlast as [Hk _]. now rewrite Hk, Hc.
Qed.

Lemma step_well_formed rec st seg d st' :
  (forall s r, balanced s -> rec s = Ok r -> forallb well_formed r = true) ->
  sim_state st st ->
  forallb well_formed (items st) = true ->
  no_delim seg -> is_delim d = true ->
  (d = RPAREN -> (depth st > 0)%Z) ->
  step rec (append_text st seg) d = Ok st' ->
  forallb well_formed (items st') = true.
Proof.
  intros Hrec (_ & _ & Hb) Hwf Hseg Hdel Hclose.
  destruct (is_delim_cases _ Hdel) as [-> | [-> | ->]].
  - rewrite step_open. unfold append_text. cbn [items buffer depth].
    destruct Hb as [(H0 & B & _)|(Hpos & _)].
    + rewrite H0, B. cbn [app]. change (0 =? 0)%Z with true. cbn [andb].
      destruct (truthy (trim seg)) eqn:T; intros [= <-]; simpl; auto.
      rewrite forallb_app, Hwf. simpl.
      now rewrite name_ok_trim.
    + replace (depth st =? 0)%Z with false
        by (symmetry; apply Z.eqb_neq; lia).
      intros [= <-]. exact Hwf.
  - specialize (Hclose eq_refl).
    destruct Hb as [(H0 & _)|(Hpos & u & _ & B & _ & _ & Hn)]; [lia|].
    destruct (Z.eq_dec (depth st - 1) 0) as [Hz|Hnz].
    + rewrite (@step_close_top rec st u seg Hz B).
      intros H. apply bind_Ok in H as (children & Hc & H).
      apply Hrec in Hc.
      * exact (@attach_group_well_formed (items st) children st' Hwf Hc H).
      * unfold balanced. rewrite nesting_app, Hn, nesting_text by exact Hseg.
        f_equal. lia.
    + rewrite step_close_inner by (unfold append_text; cbn [depth]; exact Hnz).
      intros [= <-]. exact Hwf.
  - destruct Hb as [(H0 & B & _)|(Hpos & _)].
    + rewrite step_comma_top by (unfold append_text; cbn [depth]; exact H0).
      unfold append_text. cbn [items buffer]. rewrite B. cbn [app].
      destruct (truthy (trim seg)) eqn:T; intros [= <-]; simpl; auto.
      rewrite forallb_app, Hwf. simpl.
      now rewrite name_ok_trim.
    + rewrite step_text
        by (try discriminate; right; unfold append_text; cbn [depth]; lia).
      intros [= <-]. exact Hwf.
Qed.

Lemma scan_well_formed fuel s t :
  (forall s r, balanced s -> parse_fuel fuel s = Ok r ->
               forallb well_formed r = true) ->
  ws_equiv s t ->
  forall st st',
    sim_state st st ->
    forallb well_formed (items st) = true ->
    nesting (depth st) s = Some 0%Z ->
    scan (parse_fuel fuel) s st = Ok st' ->
    forallb well_formed (finish st') = true.
Proof.
  intros Hrec.
  induction 1 as [seg1 seg2 N1 N2 Ht|seg1 seg2 d s t N1 N2 Ht Hdel _ IH];
    intros st st' Hsim Hwf Hn.
  - rewrite scan_text by exact N1. intros [= <-].
    rewrite nesting_text in Hn by exact N1. injection Hn as Hn.
    destruct Hsim as (_ & _ & [(_ & B & _)|(Hpos & _)]); [|lia].
    unfold finish, append_text. cbn [items buffer]. rewrite B. cbn [app].
    destruct (truthy (trim seg1)) eqn:T; [|exact Hwf].
    rewrite forallb_app, Hwf. simpl. now rewrite name_ok_trim.
  - rewrite scan_token by exact N1.
    rewrite nesting_app, nesting_text in Hn by exact N1.
    intros H. apply bind_Ok in H as (st1 & Hstep & Hscan).
    assert (Hclose : d = RPAREN -> (depth st > 0)%Z).
    { intros ->. simpl in Hn.
      destruct (depth st <=? 0)%Z eqn:E; [discriminate|].
      apply Z.leb_gt in E. lia. }
    assert (Hne : step (parse_fuel fuel) (append_text st seg1) d <> OutOfFuel)
      by congruence.
    pose proof (@step_sim (parse_fuel fuel) parseInput
                  (parse_fuel_whitespace fuel) st st seg1 seg1 d
                  Hsim N1 N1 eq_refl Hdel Hclose Hne) as Hout.
    rewrite Hstep in Hout.
    destruct (step parseInput (append_text st seg1) d) as [b| |];
      simpl in Hout; try contradiction.
    apply (IH st1 st'); [now apply sim_state_left in Hout| | |exact Hscan].
    + exact (@step_well_formed (parse_fuel fuel) st seg1 d st1
               Hrec Hsim Hwf N1 Hdel Hclose Hstep).
    + rewrite (@step_depth _ _ _ _ Hstep). unfold append_text. cbn [depth].
      simpl in Hn.
      destruct (d =? LPAREN)%N; [exact Hn|].
      destruct (d =? RPAREN)%N; [|exact Hn].
      destruct (depth st <=? 0)%Z; [discriminate|exact Hn].
Qed.

Lemma parse_fuel_well_formed fuel : forall s r,
  balanced s -> parse_fuel fuel s = Ok r -> forallb well_formed r = true.
Proof.
  induction fuel as [|fuel IH]; intros s r Hbal; simpl; [discriminate|].
  intros H. apply bind_Ok in H as (st & Hscan & [= <-]).
  apply (@scan_well_formed fuel s s IH (ws_equiv_refl s) init_state st);
    auto using sim_state_init.
Qed.

(** X10: on input whose parentheses match, a result of [parseInput] is a
    forest of the grammar: every object has one property, and every name is
    non-empty, trimmed and free of commas and parentheses.  Writing that
    forest in the notation and parsing it again returns the same forest. *)
Theorem balanced_input_gives_forest (s : str) (l : list Item) :
  balanced s ->
  parseInput s = Ok l ->
  forallb well_formed l = true /\ parseInput (notation l) = Ok l.
Proof.
  intros Hbal H.
  assert (Hwf : forallb well_formed l = true)
    by exact (parse_fuel_well_formed _ Hbal H).
  split; [exact Hwf|]. now apply notation_parses.
Qed.

Lemma balanced_input_gives_forest_witness :
  forallb well_formed shipped_items = true
  /\ parseInput (notation shipped_items) = Ok shipped_items.
Proof.
  apply (@balanced_input_gives_forest shipped_input); reflexivity.
Defined.

(** ** Sorting a forest of the grammar *)

Lemma sort_fuel_well_formed cmp fuel : forall items s,
  sort_fuel cmp fuel items = Ok s ->
  forallb well_formed items = true ->
  forallb well_formed s = true.
Proof.
  induction fuel as [|fuel IH]; intros items s; simpl; [discriminate|].
  intros H Hwf. apply bind_Ok in H as (sorted & Hsorted & Hloop).
  assert (Hws : forallb well_formed sorted = true).
  { rewrite forallb_forall in *. intros x Hx.
    apply Hwf, (@array_sort_In _ _ _ Hsorted), Hx. }
  clear Hsorted Hwf. apply for_of_Forall2 in Hloop.
  induction Hloop as [|a b l l' Hab _ IHl]; [reflexivity|].
  simpl in Hws. apply andb_true_iff in Hws as [Ha Hl].
  simpl. rewrite (IHl Hl), andb_true_r.
  destruct a as [n|[|[k cs] [|? ?]]]; simpl in Hab, Ha; try discriminate.
  - now injection Hab as <-.
  - apply bind_Ok in Hab as (c' & Hc' & [= <-]).
    apply andb_true_iff in Ha as [Hk Hcs]. simpl.
    now rewrite Hk, (IH _ _ Hc' Hcs).
Qed.

(** X11: what the usage example does with a parsed input holds for every
    input.  When [parseInput] returns, [printItems] returns, [sortItems]
    returns a sequence sorted at every depth, [printItems] returns on it as
    well, and the second print writes the lines of the first in another
    order, one per item. *)
Theorem parse_print_sort_print (localeCompare : str -> str -> Z)
    (input : str) (l : list Item) (out : console) :
  consistent_comparator localeCompare ->
  parseInput input = Ok l ->
  exists lines sorted lines',
    printItems l 0 out = (out ++ lines, Ok tt)
    /\ sortItems localeCompare l = Ok sorted
    /\ deep_sorted localeCompare sorted
    /\ printItems sorted 0 (out ++ lines) = ((out ++ lines) ++ lines', Ok tt)
    /\ Permutation lines lines'
    /\ length lines = count_items l.
Proof.
  intros Hc Hparse.
  pose proof (parsed_items_single_keyed (parseInput_parsed _ Hparse)) as Hsk.
  destruct (@sort_fuel_single_keyed localeCompare (S (heights l)) l)
    as (s & Hs & Hsk'); [lia|exact Hsk|].
  exists (map line_of (outline 0 l)), s, (map line_of (outline 0 s)).
  split; [now apply printItems_outline|].
  split; [exact Hs|].
  split; [exact (@sort_fuel_deep_sorted _ _ Hc _ _ Hs)|].
  split; [now apply printItems_outline|].
  split; [apply Permutation_map; exact (sort_fuel_outline _ _ _ Hs 0)|].
  rewrite length_map. now apply outline_count.
Qed.

Lemma parse_print_sort_print_witness :
  exists lines sorted lines',
    printItems shipped_items 0 [] = ([] ++ lines, Ok tt)
    /\ sortItems codeUnitCompare shipped_items = Ok sorted
    /\ deep_sorted codeUnitCompare sorted
    /\ printItems sorted 0 ([] ++ lines) = (([] ++ lines) ++ lines', Ok tt)
    /\ Permutation lines lines'
    /\ length lines = count_items shipped_items.
Proof.
  apply (@parse_print_sort_print codeUnitCompare shipped_input).
  - exact codeUnitCompare_consistent.
  - reflexivity.
Defined.

(** X12: sorting keeps a forest of the grammar in the grammar: the sorted
    sequence, written in the notation, parses back to the sorted
    sequence. *)
Theorem sorted_forest_round_trip (localeCompare : str -> str -> Z)
    (l s : list Item) :
  forallb well_formed l = true ->
  sortItems localeCompare l = Ok s ->
  forallb well_formed s = true /\ parseInput (notation s) = Ok s.
Proof.
  intros Hwf Hs.
  pose proof (sort_fuel_well_formed _ _ _ Hs Hwf) as Hwf'.
  split; [exact Hwf'|]. now apply notation_parses.
Qed.

Lemma sorted_forest_round_trip_witness :
  notation shipped_sorted
  = js "email, externalId, id, name, type(customFields(c1, c2, c3), id, name)"
  /\ parseInput (notation shipped_sorted) = Ok shipped_sorted.
Proof.
  split; [reflexivity|].
  apply (proj2 (@sorted_forest_round_trip codeUnitCompare
                  shipped_items shipped_sorted eq_refl eq_refl)).
Defined.

(** ** Objects without properties *)

Lemma print_each_keys indent (l : list Item) :
  Forall (fun c => forall d out,
            snd (print_item d c out)
            = if has_keys c then Ok tt else Throw TypeError) l ->
  forall out,
    snd (print_each (print_item indent) l out)
    = if forallb has_keys l then Ok tt else Throw TypeError.
Proof.
  induction 1 as [|c cs Hc _ IH]; intros out; [reflexivity|].
  simpl. specialize (Hc indent out).
  destruct (print_item indent c out) as [out' r]. simpl in Hc. subst r.
  destruct (has_keys c); simpl; [apply IH|reflexivity].
Qed.

Lemma print_item_keys (it : Item) : forall d out,
  snd (print_item d it out) = if has_keys it then Ok tt else Throw TypeError.
Proof.
  induction it as [s|fields IH] using Item_nested_ind; intros d out.
  - reflexivity.
  - destruct fields as [|[k cs] rest]; [reflexivity|].
    inversion IH as [|? ? Hcs _]; subst. simpl in Hcs.
    cbn [print_item has_keys]. now apply print_each_keys.
Qed.

Lemma sort_fuel_has_keys cmp fuel : forall items,
  heights items < fuel ->
  forallb has_keys items = true ->
  exists s, sort_fuel cmp fuel items = Ok s.
Proof.
  induction fuel as [|fuel IH]; intros items Hh Hk; [lia|]. simpl.
  rewrite forallb_forall in Hk.
  destruct (@array_sort_keyed cmp items) as [sorted Hsorted].
  { apply Forall_forall. intros x Hx. specialize (Hk x Hx).
    destruct x as [n|[|[k cs] rest]]; simpl in *; congruence. }
  rewrite Hsorted. simpl.
  destruct (@for_of_Forall (fun _ => True)
              (sort_children (sort_fuel cmp fuel)) sorted) as (s & Hs & _).
  - intros x Hx. apply (@array_sort_In _ _ _ Hsorted) in Hx.
    pose proof (height_le_heights _ _ Hx) as Hhx.
    specialize (Hk x Hx).
    destruct x as [n|[|[k cs] rest]]; simpl in Hk; try discriminate.
    + exists (IString n). split; [reflexivity|exact I].
    + pose proof (heights_first_child k cs rest).
      destruct (IH cs) as (c' & Hc'); [lia|exact Hk|].
      exists (IRecord ((k, c') :: rest)). simpl. rewrite Hc'. simpl. auto.
  - exists s. exact Hs.
Qed.

Lemma sort_fuel_Ok_keys cmp fuel : forall items s,
  sort_fuel cmp fuel items = Ok s -> forallb has_keys items = true.
Proof.
  induction fuel as [|fuel IH]; intros items s; simpl; [discriminate|].
  intros H. apply bind_Ok in H as (sorted & Hsorted & Hloop).
  apply forallb_forall. intros x Hx.
  apply (@array_sort_In _ _ _ Hsorted) in Hx. clear Hsorted.
  apply for_of_Forall2 in Hloop.
  induction Hloop as [|a b l l' Hab _ IHl]; [destruct Hx|].
  destruct Hx as [->|Hx]; [|now apply IHl].
  destruct x as [n|[|[k cs] rest]]; simpl in Hab; try discriminate.
  - reflexivity.
  - apply bind_Ok in Hab as (c' & Hc' & _). simpl. exact (IH _ _ Hc').
Qed.

(** X13: the only failure of the sorter and of the printer.  Both return
    when every object they reach (through first properties) has a property,
    and both throw a TypeError as soon as one reached object has none; an
    object with several properties is accepted. *)
Theorem sort_and_print_fail_on_empty_object (localeCompare : str -> str -> Z)
    (l : list Item) (indent : nat) (out : console) :
  (if forallb has_keys l
   then exists s, sortItems localeCompare l = Ok s
   else sortItems localeCompare l = Throw TypeError)
  /\ snd (printItems l indent out)
     = if forallb has_keys l then Ok tt else Throw TypeError.
Proof.
  split.
  - destruct (forallb has_keys l) eqn:K.
    + apply sort_fuel_has_keys; [lia|exact K].
    + unfold sortItems.
      destruct (sort_fuel localeCompare (S (heights l)) l) as [s|[]|] eqn:E.
      * apply sort_fuel_Ok_keys in E. congruence.
      * reflexivity.
      * exfalso. revert E. apply sort_fuel_total. lia.
  - apply print_each_keys. apply Forall_forall.
    intros c _. apply print_item_keys.
Qed.
